(** * Audio Transcriber: transcript parsing, seek mapping, search, proxy

    A shallow embedding of the logic of the Audio Transcriber application
    (the React component [App], the Express route and the serverless
    [handler] of the audio proxy), followed by the properties that its
    specification states about it.  The first part holds the model, one
    module per piece of the program; the second part holds the proofs. *)

From Stdlib Require Import String Ascii.
From Stdlib Require Import List Arith NArith Lia Bool.
From Stdlib Require Import Floats.PrimFloat.
Import ListNotations.

Set Implicit Arguments.

(** ** JavaScript strings

    A JavaScript string is a sequence of UTF-16 code units.  The regular
    expression of the parser has no [u] flag and [trim], [split] and
    [includes] work on code units as well, so a string is a list of code
    units here, each one a number below 65536. *)

Module JsString.

Definition jsstring : Type := list N.

(** The string written as an ASCII literal in the source. *)
Fixpoint js (s : string) : jsstring :=
  match s with
  | EmptyString => []
  | String a s' => N_of_ascii a :: js s'
  end.

(** The line feed, on which the response text is split into lines. *)
Definition newline : jsstring := [10%N].

(** A string is truthy when it is not empty. *)
Definition truthy (s : jsstring) : bool :=
  match s with
  | [] => false
  | _ :: _ => true
  end.

Section CodeUnits.
Local Open Scope N_scope.

(** [\d]: the ASCII digits 0-9. *)
Definition is_digit (c : N) : bool := (48 <=? c) && (c <=? 57).

(** LineTerminator: LF, CR, LS (U+2028), PS (U+2029). *)
Definition is_line_terminator (c : N) : bool :=
  (c =? 10) || (c =? 13) || (c =? 8232) || (c =? 8233).

(** [\s], and what [trim] strips: WhiteSpace and LineTerminator, that is
    TAB, LF, VT, FF, CR, SP, NBSP, U+1680, U+2000-U+200A, U+2028, U+2029,
    U+202F, U+205F, U+3000 and U+FEFF. *)
Definition is_white (c : N) : bool :=
  ((9 <=? c) && (c <=? 13)) || (c =? 32) || (c =? 160) || (c =? 5760)
  || ((8192 <=? c) && (c <=? 8202)) || (c =? 8232) || (c =? 8233)
  || (c =? 8239) || (c =? 8287) || (c =? 12288) || (c =? 65279).

(** [.] without the [s] flag: any code unit but a line terminator. *)
Definition is_dot (c : N) : bool := negb (is_line_terminator c).

End CodeUnits.

Fixpoint take_while (p : N -> bool) (s : jsstring) : jsstring :=
  match s with
  | [] => []
  | c :: s' => if p c then c :: take_while p s' else []
  end.

Fixpoint drop_while (p : N -> bool) (s : jsstring) : jsstring :=
  match s with
  | [] => []
  | c :: s' => if p c then drop_while p s' else s
  end.

(** [s.trim()] *)
Definition trim (s : jsstring) : jsstring :=
  rev (drop_while is_white (rev (drop_while is_white s))).

(** [s.split(sep)] for a separator of one code unit. *)
Fixpoint split (sep : N) (s : jsstring) : list jsstring :=
  match s with
  | [] => [[]]
  | c :: s' =>
      if N.eqb c sep then [] :: split sep s'
      else match split sep s' with
           | part :: parts => (c :: part) :: parts
           | [] => [[c]]
           end
  end.

(** [s.startsWith(q)], used by [includes] below. *)
Fixpoint starts_with (s q : jsstring) {struct q} : bool :=
  match q, s with
  | [], _ => true
  | _ :: _, [] => false
  | a :: q', b :: s' => N.eqb a b && starts_with s' q'
  end.

(** [s.includes(q)]: [q] occurs in [s] at some position. *)
Fixpoint includes (s q : jsstring) : bool :=
  starts_with s q ||
  match s with
  | [] => false
  | _ :: s' => includes s' q
  end.

End JsString.

(** ** Regular expressions

    The fragment of JavaScript regular expressions that [timeRegex] is
    written in, with the backtracking semantics of the language: a
    matcher takes the rest of the input, the captures so far and a
    continuation, and tries its alternatives in priority order (greedy
    quantifiers try the longest repetition first). *)

Module Regex.

Import JsString.

Inductive regex : Type :=
| Chr (c : N)
    (* one literal code unit, such as [\[] or [:] *)
| Rep (cls : N -> bool) (lo : nat) (hi : option nat)
    (* a greedy quantifier on a character class: [\d{1,2}], [\s*], [.*] *)
| Seq (r1 r2 : regex)
| Opt (r : regex)
    (* [(?:r)?], greedy *)
| Group (i : nat) (r : regex).
    (* the capturing group number [i] *)

(** The captures of a match: [match[i]], or [None] for [undefined]. *)
Definition captures : Type := nat -> option jsstring.

Definition no_captures : captures := fun _ => None.

Definition set_capture (i : nat) (w : jsstring) (c : captures) : captures :=
  fun j => if Nat.eqb j i then Some w else c j.

(** The part of [s] that was consumed when [s'] is what remains of it. *)
Definition consumed (s s' : jsstring) : jsstring :=
  firstn (length s - length s') s.

Section Matcher.
Context {A : Type}.

(** Greedy repetition of a class, between [lo] and [hi] times. *)
Fixpoint rep (cls : N -> bool) (lo : nat) (hi : option nat)
    (s : jsstring) (k : jsstring -> option A) : option A :=
  let stop := match lo with O => k s | S _ => None end in
  match hi with
  | Some O => stop
  | _ =>
      match s with
      | [] => stop
      | c :: s' =>
          if cls c then
            match rep cls (pred lo) (option_map pred hi) s' k with
            | Some r => Some r
            | None => stop
            end
          else stop
      end
  end.

Fixpoint run (r : regex) (s : jsstring) (caps : captures)
    (k : jsstring -> captures -> option A) : option A :=
  match r with
  | Chr c =>
      match s with
      | x :: s' => if N.eqb x c then k s' caps else None
      | [] => None
      end
  | Rep cls lo hi => rep cls lo hi s (fun s' => k s' caps)
  | Seq r1 r2 => run r1 s caps (fun s' caps' => run r2 s' caps' k)
  | Opt r' =>
      match run r' s caps k with
      | Some res => Some res
      | None => k s caps
      end
  | Group i r' =>
      run r' s caps (fun s' caps' => k s' (set_capture i (consumed s s') caps'))
  end.

End Matcher.

(** A match of [r] that starts at the first code unit of [s]. *)
Definition match_here (r : regex) (s : jsstring) : option captures :=
  run r s no_captures (fun _ caps => Some caps).

(** [s.match(r)] for a regular expression without the [g] flag: the match
    at the leftmost position that has one. *)
Fixpoint exec (r : regex) (s : jsstring) : option captures :=
  match match_here r s with
  | Some caps => Some caps
  | None =>
      match s with
      | [] => None
      | _ :: s' => exec r s'
      end
  end.

(** [n] repetitions do not exceed the upper bound [hi]. *)
Definition within (hi : option nat) (n : nat) : Prop :=
  match hi with Some h => n <= h | None => True end.

(** The words a regular expression matches, whatever the order in which
    the matcher finds them. *)
Fixpoint Matches (r : regex) (w : jsstring) : Prop :=
  match r with
  | Chr c => w = [c]
  | Rep cls lo hi =>
      forallb cls w = true /\ lo <= length w /\ within hi (length w)
  | Seq r1 r2 => exists w1 w2, w = w1 ++ w2 /\ Matches r1 w1 /\ Matches r2 w2
  | Opt r' => w = [] \/ Matches r' w
  | Group _ r' => Matches r' w
  end.

Fixpoint group_free (r : regex) : bool :=
  match r with
  | Chr _ | Rep _ _ _ => true
  | Seq r1 r2 => group_free r1 && group_free r2
  | Opt r' => group_free r'
  | Group _ _ => false
  end.

End Regex.

(** ** The transcript parser

    The loop of [handleTranscribe] that turns the text of the model's
    response into the list of chunks. *)

Module Parser.

Import JsString Regex.

Record TranscriptionChunk : Type := {
  time : jsstring;
  text : jsstring
}.

Notation "r1 ;; r2" := (Seq r1 r2) (at level 61, right associativity).

(** The part of [timeRegex] inside its first group. *)
Definition stampRegex : regex :=
  Rep is_digit 1 (Some 2) ;; Chr 58 ;; Rep is_digit 2 (Some 2) ;;
  Opt (Chr 58 ;; Rep is_digit 2 (Some 2)).

(** The regular expression literal of the source.  With blanks between
    its parts it reads
      \[ ( \d{1,2} : \d{2} (?: : \d{2} )? ) \] \s* ( .* )
    where 91, 93 and 58 are the code units of the two brackets and of the
    colon. *)
Definition timeRegex : regex :=
  Chr 91 ;; Group 1 stampRegex ;; Chr 93 ;;
  Rep is_white 0 None ;; Group 2 (Rep is_dot 0 None).

(** [match[i]] of a successful match. *)
Definition capture (caps : captures) (i : nat) : jsstring :=
  match caps i with
  | Some w => w
  | None => []
  end.

(** [line.match(timeRegex)], giving [match[1]] and [match[2]]. *)
Definition lineMatch (line : jsstring) : option (jsstring * jsstring) :=
  match exec timeRegex line with
  | Some caps => Some (capture caps 1, capture caps 2)
  | None => None
  end.

(** [chunks[chunks.length - 1].text += suffix] *)
Fixpoint appendToLast (chunks : list TranscriptionChunk) (suffix : jsstring)
    : list TranscriptionChunk :=
  match chunks with
  | [] => []
  | [c] => [{| time := time c; text := text c ++ suffix |}]
  | c :: rest => c :: appendToLast rest suffix
  end.

(** The body of the loop over the lines. *)
Definition parseLine (chunks : list TranscriptionChunk) (line : jsstring)
    : list TranscriptionChunk :=
  match lineMatch line with
  | Some (t, x) => chunks ++ [{| time := t; text := x |}]
  | None =>
      if truthy (trim line) then
        if 0 <? length chunks then
          appendToLast chunks (js " " ++ trim line)
        else
          chunks ++ [{| time := js "00:00"; text := trim line |}]
      else chunks
  end.

Definition parseLines (lines : list jsstring) : list TranscriptionChunk :=
  fold_left parseLine lines [].

(** The chunks that [handleTranscribe] computes from the response text. *)
Definition parseTranscript (text : jsstring) : list TranscriptionChunk :=
  parseLines (split 10 text).

(** *** Words for the statements about the parser *)

(** [w] consists of [n] decimal digits. *)
Definition digits (n : nat) (w : jsstring) : Prop :=
  forallb is_digit w = true /\ length w = n.

(** [w] is a non-empty string of decimal digits. *)
Definition digitString (w : jsstring) : Prop :=
  w <> [] /\ forallb is_digit w = true.

(** A timestamp: one or two digits, a colon, two digits and, optionally,
    another colon and two digits. *)
Definition timestamp (t : jsstring) : Prop :=
  exists mm ss more,
    t = mm ++ js ":" ++ ss ++ more /\
    (digits 1 mm \/ digits 2 mm) /\ digits 2 ss /\
    (more = [] \/ exists ss', more = js ":" ++ ss' /\ digits 2 ss').

(** [s] starts with the bracketed timestamp [t], and [post] follows it. *)
Definition stampedAt (s t post : jsstring) : Prop :=
  s = js "[" ++ t ++ js "]" ++ post /\ timestamp t.

(** [line] has the bracketed timestamp [t] after [pre] and before [post],
    and no bracketed timestamp starts further left. *)
Definition firstStamp (line pre t post : jsstring) : Prop :=
  line = pre ++ js "[" ++ t ++ js "]" ++ post /\ timestamp t /\
  forall p1 p2 t' post',
    pre = p1 ++ p2 -> p2 <> [] ->
    ~ stampedAt (p2 ++ js "[" ++ t ++ js "]" ++ post) t' post'.

(** What the second group captures of the text [post] that follows the
    closing bracket: leading white space is skipped and the text ends
    before the first line terminator. *)
Definition textAfter (post : jsstring) : jsstring :=
  take_while is_dot (drop_while is_white post).

(** The line pattern in the words of the specification: optional leading
    white space, a bracketed timestamp, optional white space, and the
    remainder of the line. *)
Definition specLinePattern (line t remainder : jsstring) : Prop :=
  exists ws1 ws2,
    forallb is_white ws1 = true /\ forallb is_white ws2 = true /\
    line = ws1 ++ js "[" ++ t ++ js "]" ++ ws2 ++ remainder /\
    timestamp t.

(** A line is blank when nothing is left of it after trimming. *)
Definition blank (line : jsstring) : Prop := trim line = [].

(** No bracketed timestamp occurs anywhere in the line. *)
Definition unstamped (line : jsstring) : Prop :=
  forall pre t post, line = pre ++ js "[" ++ t ++ js "]" ++ post -> ~ timestamp t.

End Parser.

(** ** JavaScript numbers

    A JavaScript [number] is an IEEE 754 binary64 value, which is what
    Rocq's primitive [float] is. *)

Module JsNumber.

Local Open Scope float_scope.

(** [a >= b] *)
Definition geb (a b : float) : bool := leb b a.

(** [Math.max(a, b)]: NaN if either argument is NaN, else the larger. *)
Definition mathMax (a b : float) : float :=
  if is_nan a then nan
  else if is_nan b then nan
  else if ltb a b then b else a.

End JsNumber.

(** ** The simulated transcription progress *)

Module Progress.

Import JsNumber.
Local Open Scope float_scope.

(** The updater passed to [setTranscriptionProgress] by the interval
    callback of [handleTranscribe]. *)
Definition progressStep (prev : float) : float :=
  if geb prev 90 then prev
  else
    let increment := mathMax 0.5 ((90 - prev) / 20) in
    prev + increment.

(** The value of the counter after [n] firings of the interval, the
    counter having been set to [v] before the first one. *)
Fixpoint ticks (n : nat) (v : float) : float :=
  match n with
  | O => v
  | S n' => ticks n' (progressStep v)
  end.

(** All values the counter takes during its first [n] firings. *)
Fixpoint orbit (n : nat) (v : float) : list float :=
  match n with
  | O => [v]
  | S n' => v :: orbit n' (progressStep v)
  end.

(** A number of firings after which the counter started at 0 no longer
    moves. *)
Definition settle : nat := 64.

End Progress.

(** ** The playback seek mapping *)

Module Seek.

Import JsString.
Local Open Scope float_scope.

(** The value of a decimal digit. *)
Definition digitValue (c : N) : float :=
  match c with
  | 49%N => 1 | 50%N => 2 | 51%N => 3 | 52%N => 4 | 53%N => 5
  | 54%N => 6 | 55%N => 7 | 56%N => 8 | 57%N => 9 | _ => 0
  end.

(** The number that a string of decimal digits denotes. *)
Definition decimalValue (w : jsstring) : float :=
  fold_left (fun acc c => acc * 10 + digitValue c) w 0.

Section WithNumber.

(** [Number(s)], the conversion of a string to a number by the language
    runtime. *)
Variable Number : jsstring -> float.

(** The seconds that the click handler of a timestamp button assigns to
    [audioRef.current.currentTime]. *)
Definition seekSeconds (time : jsstring) : float :=
  let parts := map Number (split 58 time) in
  let timeInSeconds := 0 in
  if Nat.eqb (length parts) 3 then
    nth 0 parts nan * 3600 + nth 1 parts nan * 60 + nth 2 parts nan
  else if Nat.eqb (length parts) 2 then
    nth 0 parts nan * 60 + nth 1 parts nan
  else timeInSeconds.

End WithNumber.

(** What the runtime's [Number] does on a string of one to fifteen decimal
    digits: such a string denotes an integer below 2^53, which is a
    number of the language. *)
Definition NumberOnDigits (Number : jsstring -> float) : Prop :=
  forall w, forallb is_digit w = true -> 1 <= length w <= 15 ->
    Number w = decimalValue w.

(** A conversion that agrees with the runtime on strings of digits and
    gives NaN elsewhere; it instantiates [Number] in examples. *)
Definition digitsNumber (w : jsstring) : float :=
  if truthy w && forallb is_digit w then decimalValue w else nan.

End Seek.

(** ** The search filter *)

Module Search.

Import JsString Parser.

Section WithLowerCase.

(** [s.toLowerCase()], the lower-casing of the language runtime.  It works
    on the string as a whole: some characters give two code units, and
    the capital sigma gives one of two letters according to what stands
    around it.  It is taken as the runtime has it. *)
Variable toLowerCase : jsstring -> jsstring.

(** [filteredTranscription] *)
Definition filteredTranscription (transcription : list TranscriptionChunk)
    (searchQuery : jsstring) : list TranscriptionChunk :=
  filter (fun chunk => includes (toLowerCase (text chunk)) (toLowerCase searchQuery))
    transcription.

End WithLowerCase.

(** [q] occurs in [s] as it stands. *)
Definition occursIn (q s : jsstring) : Prop :=
  exists pre post, s = pre ++ q ++ post.

Section WithCaseMapping.

(** A case mapping of single code units. *)
Variable lowerUnit : N -> N.

(** Two strings that differ only in the case of their characters. *)
Definition sameIgnoringCase (w q : jsstring) : Prop :=
  Forall2 (fun a b => lowerUnit a = lowerUnit b) w q.

(** [t] contains [q] as a case-insensitive substring. *)
Definition containsIgnoringCase (t q : jsstring) : Prop :=
  exists pre w post, t = pre ++ w ++ post /\ sameIgnoringCase w q.

End WithCaseMapping.

(** [kept P l l']: [l'] is exactly the subsequence of the elements of [l]
    that satisfy [P], in their original order. *)
Inductive kept {A : Type} (P : A -> Prop) : list A -> list A -> Prop :=
| kept_nil : kept P [] []
| kept_take x l l' : P x -> kept P l l' -> kept P (x :: l) (x :: l')
| kept_skip x l l' : ~ P x -> kept P l l' -> kept P (x :: l) l'.

(** The lower-case mapping of ASCII: the letters A-Z go to a-z, every
    other code unit stays. *)
Definition asciiLower (c : N) : N :=
  if (65 <=? c)%N && (c <=? 90)%N then (c + 32)%N else c.

(** A string of ASCII characters. *)
Definition isAscii (s : jsstring) : Prop := Forall (fun c => (c < 128)%N) s.

(** What the runtime's [toLowerCase] does on a string of ASCII
    characters: it maps each letter A-Z to a-z and changes nothing
    else. *)
Definition LowerOnAscii (toLowerCase : jsstring -> jsstring) : Prop :=
  forall s, isAscii s -> toLowerCase s = map asciiLower s.

(** The letters with case among Basic Latin (A-Z, a-z) and Greek
    (U+0391-U+03A9 without U+03A2, U+03B1-U+03C9). *)
Definition isCased (c : N) : bool :=
  (((65 <=? c) && (c <=? 90)) || ((97 <=? c) && (c <=? 122))
   || ((913 <=? c) && (c <=? 937) && negb (c =? 930))
   || ((945 <=? c) && (c <=? 969)))%N.

(** The lower-case letter of a capital of these two alphabets. *)
Definition lowerLetter (c : N) : N :=
  if ((65 <=? c) && (c <=? 90))%N then (c + 32)%N
  else if ((913 <=? c) && (c <=? 937) && negb (c =? 930))%N then (c + 32)%N
  else c.

(** The characters among these that the final-sigma rule looks through:
    apostrophe, full stop, colon, circumflex and grave accent. *)
Definition isCaseIgnorable (c : N) : bool :=
  ((c =? 39) || (c =? 46) || (c =? 58) || (c =? 94) || (c =? 96))%N.

(** A letter with case follows, possibly after characters that the rule
    looks through. *)
Fixpoint letterFollows (s : jsstring) : bool :=
  match s with
  | [] => false
  | d :: rest => if isCaseIgnorable d then letterFollows rest else isCased d
  end.

(** The capital sigma (U+03A3) gives the final sigma (U+03C2) when a
    letter stands before it and none after it, and the sigma (U+03C3)
    otherwise.  [afterLetter] tells whether a letter stands before. *)
Fixpoint lowerAfter (afterLetter : bool) (s : jsstring) : jsstring :=
  match s with
  | [] => []
  | c :: rest =>
      (if (c =? 931)%N && afterLetter && negb (letterFollows rest) then 962%N
       else lowerLetter c)
      :: lowerAfter (if isCaseIgnorable c then afterLetter else isCased c) rest
  end.

(** The lower-casing of the language standard on strings made of Basic
    Latin characters and of the Greek letters above.  On other characters
    it is the identity, which the standard's is not: this function stands
    for [toLowerCase] in examples on such strings only, and no theorem
    about the filter is limited to it. *)
Definition standardLower (s : jsstring) : jsstring := lowerAfter false s.

End Search.

(** ** The audio proxy

    The handler of [GET /api/proxy-audio], which the Express server and
    the serverless function both have with the same body. *)

Module Proxy.

Import JsString.

(** The result of an awaited call: a value, or a thrown exception. *)
Inductive outcome (A : Type) : Type :=
| Returns (a : A)
| Throws.
Arguments Returns {A} a.
Arguments Throws {A}.

(** The [Response] of the upstream [fetch]. *)
Record upstream : Type := {
  status : N;
  contentType : option jsstring;      (* [headers.get('content-type')] *)
  arrayBuffer : outcome (list N)      (* the awaited body, as bytes *)
}.

(** [response.ok]: the status is in the range 200-299. *)
Definition ok (r : upstream) : bool :=
  ((200 <=? status r) && (status r <=? 299))%N.

(** What [res] has been told to send. *)
Inductive body : Type :=
| Json (error : jsstring)             (* [res.json({ error })] *)
| Buffer (bytes : list N).            (* [res.send(buffer)] *)

(** The response object [res], as the handler leaves it: the status it
    set, the headers it set with [setHeader], the body it gave to [json]
    or [send].  What the framework itself adds to or changes in the
    headers when it sends the body is not part of it. *)
Record response : Type := {
  statusCode : N;
  headers : list (string * jsstring);
  sent : option body
}.

Definition freshResponse : response :=
  {| statusCode := 200; headers := []; sent := None |}.

(** The request: [req.query.url], [None] when the parameter is missing. *)
Record request : Type := { query_url : option jsstring }.

(** A computation on [res] that may throw. *)
Definition M (A : Type) : Type := response -> outcome A * response.

Definition ret {A} (a : A) : M A := fun res => (Returns a, res).

Definition bind {A B} (m : M A) (f : A -> M B) : M B :=
  fun res =>
    match m res with
    | (Returns a, res') => f a res'
    | (Throws, res') => (Throws, res')
    end.

Notation "x <- m ;; f" := (bind m (fun x => f))
  (at level 61, m at next level, right associativity).
Notation "m ;;; f" := (bind m (fun _ => f))
  (at level 61, right associativity).

(** [await e] *)
Definition await {A} (e : outcome A) : M A := fun res => (e, res).

(** [try { body } catch (error) { handler }] *)
Definition tryCatch (body handler : M unit) : M unit :=
  fun res =>
    match body res with
    | (Returns u, res') => (Returns u, res')
    | (Throws, res') => handler res'
    end.

Definition res_status (code : N) : M unit :=
  fun res =>
    (Returns tt,
     {| statusCode := code; headers := headers res; sent := sent res |}).

Definition res_setHeader (name : string) (value : jsstring) : M unit :=
  fun res =>
    (Returns tt,
     {| statusCode := statusCode res;
        headers := (name, value)
                   :: filter (fun h => negb (String.eqb (fst h) name)) (headers res);
        sent := sent res |}).

(** [res.json({ error })].  The handler hands over the body; the content
    type under which the framework sends it is the framework's choice and
    is not recorded in [headers]. *)
Definition res_json (error : jsstring) : M unit :=
  fun res =>
    (Returns tt,
     {| statusCode := statusCode res; headers := headers res;
        sent := Some (Json error) |}).

Definition res_send (bytes : list N) : M unit :=
  fun res =>
    (Returns tt,
     {| statusCode := statusCode res; headers := headers res;
        sent := Some (Buffer bytes) |}).

Definition getHeader (name : string) (res : response) : option jsstring :=
  match find (fun h => String.eqb (fst h) name) (headers res) with
  | Some h => Some (snd h)
  | None => None
  end.

Section WithFetch.

(** The global [fetch] of the server: the upstream response for a URL,
    or an exception. *)
Variable fetch : jsstring -> outcome upstream.

(** The body of the handler. *)
Definition proxyAudio (req : request) : M unit :=
  tryCatch
    (match query_url req with
     | None => res_status 400 ;;; res_json (js "URL is required")
     | Some audioUrl =>
         if negb (truthy audioUrl) then
           res_status 400 ;;; res_json (js "URL is required")
         else
           response <- await (fetch audioUrl) ;;
           if negb (ok response) then
             res_status (status response) ;;; res_json (js "Failed to fetch audio")
           else
             (match contentType response with
              | Some ct => if truthy ct then res_setHeader "Content-Type" ct else ret tt
              | None => ret tt
              end) ;;;
             bytes <- await (arrayBuffer response) ;;
             res_send bytes
     end)
    (res_status 500 ;;; res_json (js "Failed to fetch audio")).

(** The serverless function [handler(req, res)]. *)
Definition handler (req : request) : response :=
  snd (proxyAudio req freshResponse).

(** The middleware of the Express server that every request passes
    before its route.  (The [cors] and [express.json] middlewares come
    from libraries; what they add to the response is left aside.) *)
Definition isolationHeaders : M unit :=
  res_setHeader "Cross-Origin-Opener-Policy" (js "same-origin") ;;;
  res_setHeader "Cross-Origin-Embedder-Policy" (js "require-corp").

(** The route [app.get('/api/proxy-audio', ...)] of the Express server. *)
Definition serverRoute (req : request) : response :=
  snd ((isolationHeaders ;;; proxyAudio req) freshResponse).

End WithFetch.

(** [route] is one of the two entry points of the proxy, run with the
    given upstream. *)
Definition entryPoint (fetch : jsstring -> outcome upstream)
    (route : request -> response) : Prop :=
  route = handler fetch \/ route = serverRoute fetch.

End Proxy.

(** ** The component [App]: its state and its actions *)

Module App.

Import JsString Parser Proxy.
Local Open Scope float_scope.

Inductive format : Type := mp3 | m4a | aac.

(** A [File] or [Blob]: its MIME type and its bytes. *)
Record blob : Type := { blobType : jsstring; blobBytes : list N }.

(** The state variables of the component, one field per [useState]. *)
Record state : Type := {
  audioFile : option blob;
  audioUrl : jsstring;
  inputUrl : jsstring;
  isTranscribing : bool;
  transcriptionProgress : float;
  transcription : list TranscriptionChunk;
  searchQuery : jsstring;
  isConverting : bool;
  conversionProgress : float;
  convertedUrl : option jsstring;
  targetFormat : format
}.

(** The initial values given to [useState]. *)
Definition initialState : state :=
  {| audioFile := None; audioUrl := []; inputUrl := [];
     isTranscribing := false; transcriptionProgress := 0;
     transcription := []; searchQuery := [];
     isConverting := false; conversionProgress := 0;
     convertedUrl := None; targetFormat := mp3 |}.

(** The state setters. *)
Definition setAudioFile (v : option blob) (s : state) : state :=
  {| audioFile := v; audioUrl := audioUrl s; inputUrl := inputUrl s;
     isTranscribing := isTranscribing s;
     transcriptionProgress := transcriptionProgress s;
     transcription := transcription s; searchQuery := searchQuery s;
     isConverting := isConverting s;
     conversionProgress := conversionProgress s;
     convertedUrl := convertedUrl s; targetFormat := targetFormat s |}.

Definition setAudioUrl (v : jsstring) (s : state) : state :=
  {| audioFile := audioFile s; audioUrl := v; inputUrl := inputUrl s;
     isTranscribing := isTranscribing s;
     transcriptionProgress := transcriptionProgress s;
     transcription := transcription s; searchQuery := searchQuery s;
     isConverting := isConverting s;
     conversionProgress := conversionProgress s;
     convertedUrl := convertedUrl s; targetFormat := targetFormat s |}.

Definition setInputUrl (v : jsstring) (s : state) : state :=
  {| audioFile := audioFile s; audioUrl := audioUrl s; inputUrl := v;
     isTranscribing := isTranscribing s;
     transcriptionProgress := transcriptionProgress s;
     transcription := transcription s; searchQuery := searchQuery s;
     isConverting := isConverting s;
     conversionProgress := conversionProgress s;
     convertedUrl := convertedUrl s; targetFormat := targetFormat s |}.

Definition setIsTranscribing (v : bool) (s : state) : state :=
  {| audioFile := audioFile s; audioUrl := audioUrl s; inputUrl := inputUrl s;
     isTranscribing := v;
     transcriptionProgress := transcriptionProgress s;
     transcription := transcription s; searchQuery := searchQuery s;
     isConverting := isConverting s;
     conversionProgress := conversionProgress s;
     convertedUrl := convertedUrl s; targetFormat := targetFormat s |}.

(** [setTranscriptionProgress], which is called with an updater. *)
Definition setTranscriptionProgress (f : float -> float) (s : state) : state :=
  {| audioFile := audioFile s; audioUrl := audioUrl s; inputUrl := inputUrl s;
     isTranscribing := isTranscribing s;
     transcriptionProgress := f (transcriptionProgress s);
     transcription := transcription s; searchQuery := searchQuery s;
     isConverting := isConverting s;
     conversionProgress := conversionProgress s;
     convertedUrl := convertedUrl s; targetFormat := targetFormat s |}.

Definition setTranscription (v : list TranscriptionChunk) (s : state) : state :=
  {| audioFile := audioFile s; audioUrl := audioUrl s; inputUrl := inputUrl s;
     isTranscribing := isTranscribing s;
     transcriptionProgress := transcriptionProgress s;
     transcription := v; searchQuery := searchQuery s;
     isConverting := isConverting s;
     conversionProgress := conversionProgress s;
     convertedUrl := convertedUrl s; targetFormat := targetFormat s |}.

Definition setSearchQuery (v : jsstring) (s : state) : state :=
  {| audioFile := audioFile s; audioUrl := audioUrl s; inputUrl := inputUrl s;
     isTranscribing := isTranscribing s;
     transcriptionProgress := transcriptionProgress s;
     transcription := transcription s; searchQuery := v;
     isConverting := isConverting s;
     conversionProgress := conversionProgress s;
     convertedUrl := convertedUrl s; targetFormat := targetFormat s |}.

Definition setIsConverting (v : bool) (s : state) : state :=
  {| audioFile := audioFile s; audioUrl := audioUrl s; inputUrl := inputUrl s;
     isTranscribing := isTranscribing s;
     transcriptionProgress := transcriptionProgress s;
     transcription := transcription s; searchQuery := searchQuery s;
     isConverting := v;
     conversionProgress := conversionProgress s;
     convertedUrl := convertedUrl s; targetFormat := targetFormat s |}.

Definition setConversionProgress (v : float) (s : state) : state :=
  {| audioFile := audioFile s; audioUrl := audioUrl s; inputUrl := inputUrl s;
     isTranscribing := isTranscribing s;
     transcriptionProgress := transcriptionProgress s;
     transcription := transcription s; searchQuery := searchQuery s;
     isConverting := isConverting s;
     conversionProgress := v;
     convertedUrl := convertedUrl s; targetFormat := targetFormat s |}.

Definition setConvertedUrl (v : option jsstring) (s : state) : state :=
  {| audioFile := audioFile s; audioUrl := audioUrl s; inputUrl := inputUrl s;
     isTranscribing := isTranscribing s;
     transcriptionProgress := transcriptionProgress s;
     transcription := transcription s; searchQuery := searchQuery s;
     isConverting := isConverting s;
     conversionProgress := conversionProgress s;
     convertedUrl := v; targetFormat := targetFormat s |}.

Definition setTargetFormat (v : format) (s : state) : state :=
  {| audioFile := audioFile s; audioUrl := audioUrl s; inputUrl := inputUrl s;
     isTranscribing := isTranscribing s;
     transcriptionProgress := transcriptionProgress s;
     transcription := transcription s; searchQuery := searchQuery s;
     isConverting := isConverting s;
     conversionProgress := conversionProgress s;
     convertedUrl := convertedUrl s; targetFormat := v |}.

(** What an action does besides updating the state. *)
Inductive effect : Type :=
| PreventDefault                      (* [e.preventDefault()] *)
| ConsoleError                        (* [console.error(error)] *)
| Alert (message : jsstring)          (* [alert(message)] *)
| ClearInterval                       (* [clearInterval(progressInterval)] *)
| ResetTranscribingAfter (ms : N).    (* [setTimeout(() => setIsTranscribing(false), ms)] *)

(** The messages an action shows to the user. *)
Definition alerts (effects : list effect) : list jsstring :=
  flat_map (fun e => match e with Alert m => [m] | _ => [] end) effects.

(** The response of the proxy as the browser's [fetch] gives it. *)
Record proxyResponse : Type := {
  response_ok : bool;
  response_blob : outcome blob        (* the awaited [response.blob()] *)
}.

(** The response of the generative model. *)
Record modelResponse : Type := { response_text : option jsstring }.

(** What the component calls outside itself. *)
Record environment : Type := {
  (* [URL.createObjectURL] *)
  createObjectURL : blob -> jsstring;
  (* the awaited [fetch] of the proxy for an input URL *)
  fetchProxy : jsstring -> outcome proxyResponse;
  (* the awaited promise around [FileReader] and [ai.models.generateContent];
     [None] is a falsy response *)
  generateContent : blob -> outcome (option modelResponse);
  (* the awaited [convertAudio]: the progress values it reports, then its result *)
  convertAudio : blob -> format -> list float * outcome blob
}.

Section Actions.

Variable env : environment.

(** [handleFileUpload]; [file] is [e.target.files?.[0]]. *)
Definition handleFileUpload (file : option blob) (s : state) : state :=
  match file with
  | Some f =>
      setConvertedUrl None
        (setTranscription []
          (setAudioUrl (createObjectURL env f)
            (setAudioFile (Some f) s)))
  | None => s
  end.

(** The state after a successful load in [handleUrlSubmit]. *)
Definition loadBlob (b : blob) (s : state) : state :=
  setConvertedUrl None
    (setTranscription []
      (setAudioUrl (createObjectURL env b)
        (setAudioFile (Some b) s))).

Definition loadFailed : list effect :=
  [ConsoleError;
   Alert (js "Failed to load audio from URL. Please check the URL and try again.")].

(** [handleUrlSubmit] *)
Definition handleUrlSubmit (s : state) : state * list effect :=
  if negb (truthy (inputUrl s)) then (s, [PreventDefault])
  else
    match fetchProxy env (inputUrl s) with
    | Returns response =>
        if negb (response_ok response) then (s, PreventDefault :: loadFailed)
        else
          match response_blob response with
          | Returns b => (loadBlob b s, [PreventDefault])
          | Throws => (s, PreventDefault :: loadFailed)
          end
    | Throws => (s, PreventDefault :: loadFailed)
    end.

(** The callback of [progressInterval]. *)
Definition progressTick (s : state) : state :=
  setTranscriptionProgress Progress.progressStep s.

(** The state of [handleTranscribe] while it awaits the response, the
    interval having fired [n] times since the action started. *)
Definition transcribePending (n : nat) (s : state) : state :=
  Nat.iter n progressTick
    (setTranscriptionProgress (fun _ => 0) (setIsTranscribing true s)).

Definition transcribeFailed : list effect :=
  [ConsoleError;
   Alert (js "Transcription failed. The file might be too large or the API encountered an error.");
   ClearInterval].

(** [handleTranscribe]; [n] is the number of times the interval fires
    before the awaited response settles. *)
Definition handleTranscribe (n : nat) (s : state) : state * list effect :=
  match audioFile s with
  | None => (s, [])
  | Some file =>
      let pending := transcribePending n s in
      match generateContent env file with
      | Returns (Some response) =>
          let text :=
            match response_text response with
            | Some t => if truthy t then t else []
            | None => []
            end in
          let chunks := parseTranscript text in
          (setTranscriptionProgress (fun _ => 100) (setTranscription chunks pending),
           [ClearInterval; ResetTranscribingAfter 500])
      | Returns None => (setIsTranscribing false pending, transcribeFailed)
      | Throws => (setIsTranscribing false pending, transcribeFailed)
      end
  end.

(** [handleConvert] *)
Definition handleConvert (s : state) : state * list effect :=
  match audioFile s with
  | None => (s, [])
  | Some file =>
      let started := setConversionProgress 0 (setIsConverting true s) in
      let (reports, result) := convertAudio env file (targetFormat s) in
      let reported := fold_left (fun st p => setConversionProgress p st) reports started in
      match result with
      | Returns convertedBlob =>
          (setIsConverting false
             (setConvertedUrl (Some (createObjectURL env convertedBlob)) reported),
           [])
      | Throws =>
          (setIsConverting false reported,
           [ConsoleError; Alert (js "Conversion failed. Please try again.")])
      end
  end.

End Actions.

(** Two environments for the examples: one in which every outside call
    fails, one in which every outside call succeeds. *)
Definition sampleBlob : blob :=
  {| blobType := js "audio/mpeg"; blobBytes := [73; 68; 51]%N |}.

Definition offline : environment :=
  {| createObjectURL := fun _ => js "blob:audio";
     fetchProxy := fun _ => Throws;
     generateContent := fun _ => Throws;
     convertAudio := fun _ _ => ([], Throws) |}.

Definition online : environment :=
  {| createObjectURL := fun _ => js "blob:audio";
     fetchProxy := fun _ =>
       Returns {| response_ok := true; response_blob := Returns sampleBlob |};
     generateContent := fun _ =>
       Returns (Some {| response_text := Some (js "[00:05] Hello") |});
     convertAudio := fun b _ => ([50; 100], Returns b) |}.

(** The state once [sampleBlob] has been loaded from the file picker. *)
Definition loadedState : state :=
  handleFileUpload online (Some sampleBlob) initialState.

(** A state late in a session: a transcript and a converted file exist, a
    query and a format have been chosen, and a URL has been typed. *)
Definition busyState : state :=
  setInputUrl (js "https://example.org/talk.mp3")
    (setSearchQuery (js "he")
      (setTargetFormat aac
        (setConvertedUrl (Some (js "blob:converted"))
          (setTranscription [{| time := js "00:05"; text := js "Hello" |}]
            loadedState)))).

End App.

(** ** The sequence of chunks, line by line *)

Module Transcript.

Import JsString Parser.

(** The timestamp that a line contributes: the first group of its match,
    if it has one. *)
Definition stampOf (line : jsstring) : list jsstring :=
  match lineMatch line with
  | Some (t, _) => [t]
  | None => []
  end.

(** The timestamps of the lines, in the order of the lines. *)
Definition stamps (lines : list jsstring) : list jsstring :=
  flat_map stampOf lines.

(** The first line that is not blank has no timestamp. *)
Fixpoint strayStart (lines : list jsstring) : bool :=
  match lines with
  | [] => false
  | l :: rest =>
      match lineMatch l with
      | Some _ => false
      | None => if truthy (trim l) then true else strayStart rest
      end
  end.

(** A text that the second group of [timeRegex] captures whole: it has no
    line terminator and does not start with white space. *)
Definition plainText (x : jsstring) : Prop :=
  forallb is_dot x = true /\
  match x with
  | [] => True
  | c :: _ => is_white c = false
  end.

End Transcript.

(** ** The export to a Word document

    [handleExportWord] builds one paragraph per chunk, packs the document
    and has the browser download it. *)

Module WordExport.

Import JsString Parser Proxy.

(** A [TextRun] with the options the source gives it. *)
Record TextRun : Type := {
  run_text : jsstring;
  run_bold : bool;
  run_color : option jsstring
}.

(** A [Paragraph]: its runs and its [spacing.after]. *)
Record Paragraph : Type := {
  children : list TextRun;
  spacing_after : N
}.

(** The paragraph of a chunk: the bracketed time in bold, then the text. *)
Definition chunkParagraph (chunk : TranscriptionChunk) : Paragraph :=
  {| children :=
       [{| run_text := js "[" ++ time chunk ++ js "] ";
           run_bold := true;
           run_color := Some (js "059669") |};
        {| run_text := text chunk;
           run_bold := false;
           run_color := None |}];
     spacing_after := 200 |}.

(** The children of the one section of the [Document]. *)
Definition document (transcription : list TranscriptionChunk) : list Paragraph :=
  map chunkParagraph transcription.

(** The text a reader sees in a paragraph: its runs one after the other. *)
Definition paragraphText (p : Paragraph) : jsstring :=
  flat_map run_text (children p).

Inductive exportEffect : Type :=
| Download (name href : jsstring)     (* the click on the temporary link *)
| RevokeObjectURL (url : jsstring)
| ExportConsoleError
| ExportAlert (message : jsstring).

Section WithPacker.

(** [Packer.toBlob], awaited, and [URL.createObjectURL]. *)
Variable toBlob : list Paragraph -> outcome (list N).
Variable createObjectURL : list N -> jsstring.

(** [handleExportWord]: the document it builds, if any, and what it does
    with it.  It calls no state setter. *)
Definition handleExportWord (transcription : list TranscriptionChunk)
    : option (list Paragraph) * list exportEffect :=
  if Nat.eqb (length transcription) 0 then (None, [])
  else
    let doc := document transcription in
    match toBlob doc with
    | Returns blob =>
        let url := createObjectURL blob in
        (Some doc, [Download (js "transcription.docx") url; RevokeObjectURL url])
    | Throws =>
        (Some doc,
         [ExportConsoleError; ExportAlert (js "Failed to export Word document.")])
    end.

End WithPacker.

End WordExport.

(** ** The range of the seek offsets *)

Module SeekRange.

Import JsString Seek.
Local Open Scope float_scope.

(** The code units of the ten digits. *)
Definition digitCodes : list N := [48; 49; 50; 51; 52; 53; 54; 55; 56; 57]%N.

(** The strings of one digit and of two digits. *)
Definition oneDigit : list jsstring := map (fun a => [a]) digitCodes.

Definition twoDigits : list jsstring :=
  flat_map (fun a => map (fun b => [a; b]) digitCodes) digitCodes.

(** A number of seconds between 0 and 99:99:99, that is 362439; NaN is
    not in the range. *)
Definition inRange (x : float) : bool := leb 0 x && leb x 362439.

(** The offset of a time of two parts, and of one of three parts. *)
Definition twoPartOffset (m sec : jsstring) : float :=
  decimalValue m * 60 + decimalValue sec.

Definition threePartOffset (h m sec : jsstring) : float :=
  decimalValue h * 3600 + decimalValue m * 60 + decimalValue sec.

End SeekRange.

(** ** What the component renders of its state *)

Module View.

Import JsString JsNumber Parser Search App.
Local Open Scope float_scope.

(** The text of a response, the empty string when it has none: what
    [handleTranscribe] parses. *)
Definition textOf (response : modelResponse) : jsstring :=
  match response_text response with
  | Some t => t
  | None => []
  end.

(** [Math.min(a, b)]: NaN if either argument is NaN, else the smaller;
    of two zeros, the negative one. *)
Definition mathMin (a b : float) : float :=
  if is_nan a then nan
  else if is_nan b then nan
  else if ltb a b then a
  else if ltb b a then b
  else if get_sign a then a else b.

(** The width of the progress bar, in percent. *)
Definition barWidth (s : state) : float :=
  mathMin 100 (mathMax 0 (transcriptionProgress s)).

(** The player with the Transcribe button and the conversion box are
    rendered under [audioUrl &&]. *)
Definition audioControlsShown (s : state) : bool := truthy (audioUrl s).

(** The three alternatives of the transcription panel.  For the list, the
    chunks that are shown and whether the line "No results found" is;
    the percentage label of the progress bar is left out. *)
Inductive panel : Type :=
| Analyzing (width : float)
| NoTranscriptionYet
| ChunkList (shown : list TranscriptionChunk) (noResults : bool).

Section WithLowerCase.

Variable toLowerCase : jsstring -> jsstring.

Definition transcriptionPanel (s : state) : panel :=
  if isTranscribing s then Analyzing (barWidth s)
  else if Nat.eqb (length (transcription s)) 0 then NoTranscriptionYet
  else
    let filtered := filteredTranscription toLowerCase (transcription s) (searchQuery s) in
    ChunkList filtered
      (Nat.eqb (length filtered) 0 && truthy (searchQuery s)).

End WithLowerCase.

End View.

(** ** The state changes of a session

    Every batch of setter calls that the component makes, as a transition.
    The asynchronous actions are split where they await: what they do
    before and what they do once the awaited call has settled are separate
    transitions, and other transitions may come in between.  The session
    counts the calls that have started and not yet settled. *)

Module Session.

Import JsString Parser Proxy App View.

Record session : Type := {
  ui : state;
  transcribing : nat;     (* calls of [handleTranscribe] that await *)
  converting : nat        (* calls of [handleConvert] that await *)
}.

Definition start : session :=
  {| ui := initialState; transcribing := 0; converting := 0 |}.

Definition withUi (f : state -> state) (x : session) : session :=
  {| ui := f (ui x); transcribing := transcribing x; converting := converting x |}.

Inductive update : session -> session -> Prop :=
| load_audio (b : blob) (url : jsstring) x :
    (* [handleFileUpload] with a file, and [handleUrlSubmit] once the blob
       has arrived; [url] is the new object URL *)
    update x
      (withUi (fun s => setConvertedUrl None
                 (setTranscription []
                   (setAudioUrl url (setAudioFile (Some b) s)))) x)
| type_url (v : jsstring) x :
    update x (withUi (setInputUrl v) x)
| type_query (v : jsstring) x :
    update x (withUi (setSearchQuery v) x)
| choose_format (f : format) x :
    update x (withUi (setTargetFormat f) x)
| transcribe_begin (file : blob) x :
    audioFile (ui x) = Some file ->
    update x
      {| ui := setTranscriptionProgress (fun _ => 0%float) (setIsTranscribing true (ui x));
         transcribing := S (transcribing x);
         converting := converting x |}
| progress_tick x :
    (* the callback of the interval *)
    update x (withUi progressTick x)
| transcribe_done (text : jsstring) x n :
    transcribing x = S n ->
    update x
      {| ui := setTranscriptionProgress (fun _ => 100%float)
                 (setTranscription (parseTranscript text) (ui x));
         transcribing := n;
         converting := converting x |}
| transcribe_failed x n :
    transcribing x = S n ->
    update x
      {| ui := setIsTranscribing false (ui x);
         transcribing := n;
         converting := converting x |}
| transcribe_timer x :
    (* the callback of the timeout set after a success *)
    update x (withUi (setIsTranscribing false) x)
| convert_begin (file : blob) x :
    audioFile (ui x) = Some file ->
    update x
      {| ui := setConversionProgress 0%float (setIsConverting true (ui x));
         transcribing := transcribing x;
         converting := S (converting x) |}
| convert_progress (p : float) x :
    update x (withUi (setConversionProgress p) x)
| convert_done (url : jsstring) x n :
    converting x = S n ->
    update x
      {| ui := setIsConverting false (setConvertedUrl (Some url) (ui x));
         transcribing := transcribing x;
         converting := n |}
| convert_failed x n :
    converting x = S n ->
    update x
      {| ui := setIsConverting false (ui x);
         transcribing := transcribing x;
         converting := n |}.

(** The sessions that a sequence of transitions leads to. *)
Inductive reachable : session -> Prop :=
| reachable_start : reachable start
| reachable_update x y : reachable x -> update x y -> reachable y.

(** Something is there that was made from a loaded audio: the controls
    that act on it, a call that awaits, a transcript, a converted file. *)
Definition usesAudio (x : session) : Prop :=
  audioControlsShown (ui x) = true \/ transcribing x <> 0 \/ converting x <> 0
  \/ transcription (ui x) <> [] \/ convertedUrl (ui x) <> None.

End Session.

(** ** The conversion engine

    [getFFmpeg] and [convertAudio].  The FFmpeg object and the helpers
    [toBlobURL] and [fetchFile] belong to libraries: their calls are
    recorded in the order in which the code makes them, and what each
    awaited call gives, a value or an exception, is taken from outside. *)

Module Ffmpeg.

Import JsString App.

Local Abbreviation outcome := Proxy.outcome.
Local Abbreviation Returns := Proxy.Returns.
Local Abbreviation Throws := Proxy.Throws.

(** An FFmpeg object, as far as this code can tell: whether its [load]
    has completed. *)
Record instance : Type := { loaded : bool }.

Inductive call : Type :=
| NewFFmpeg
| ToBlobURL (url mimeType : jsstring)
| Load (coreURL wasmURL : jsstring)
| On (listener : nat)                 (* [ff.on('progress', f)] *)
| Off (listener : nat)                (* [ff.off('progress', f)] *)
| FetchFile (file : blob)
| WriteFile (name : jsstring) (data : list N)
| Exec (args : list jsstring)
| ReadFile (name : jsstring)
| DeleteFile (name : jsstring).

(** What the awaited library calls give. *)
Record library : Type := {
  toBlobURL : jsstring -> jsstring -> outcome jsstring;
  load : jsstring -> jsstring -> outcome unit;
  fetchFile : blob -> outcome (list N);
  writeFile : jsstring -> list N -> outcome unit;
  exec : list jsstring -> outcome N;
  readFile : jsstring -> outcome (list N);
  deleteFile : jsstring -> outcome unit
}.

(** The module variable [ffmpeg], and the number of function objects
    created so far: a function object is told apart from the others by
    its rank of creation. *)
Record memory : Type := {
  ffmpeg : option instance;
  functions : nat
}.

(** A computation: its result, the memory after it, the calls it made. *)
Definition C (A : Type) : Type := memory -> outcome A * memory * list call.

Definition resultOf {A} (r : outcome A * memory * list call) : outcome A :=
  fst (fst r).
Definition memoryOf {A} (r : outcome A * memory * list call) : memory :=
  snd (fst r).
Definition callsOf {A} (r : outcome A * memory * list call) : list call :=
  snd r.

Definition ret {A} (a : A) : C A := fun m => (Returns a, m, []).

Definition bind {A B} (c : C A) (f : A -> C B) : C B :=
  fun m =>
    match c m with
    | (Returns a, m', t) =>
        match f a m' with
        | (r, m'', t') => (r, m'', t ++ t')
        end
    | (Throws, m', t) => (Throws, m', t)
    end.

Notation "x <- c ;; f" := (bind c (fun x => f))
  (at level 61, c at next level, right associativity).
Notation "c ;;; f" := (bind c (fun _ => f))
  (at level 61, right associativity).

(** An awaited library call, and a call that returns nothing. *)
Definition await {A} (c : call) (o : outcome A) : C A := fun m => (o, m, [c]).
Definition tell (c : call) : C unit := fun m => (Returns tt, m, [c]).

Definition readVariable : C (option instance) :=
  fun m => (Returns (ffmpeg m), m, []).
Definition writeVariable (v : option instance) : C unit :=
  fun m => (Returns tt, {| ffmpeg := v; functions := functions m |}, []).

(** The evaluation of a function expression: a new function object. *)
Definition newFunction : C nat :=
  fun m => (Returns (functions m),
            {| ffmpeg := ffmpeg m; functions := S (functions m) |}, []).

Definition baseURL : jsstring := js "https://unpkg.com/@ffmpeg/core@0.12.6/dist/esm".

Definition formatName (f : format) : jsstring :=
  match f with
  | mp3 => js "mp3"
  | m4a => js "m4a"
  | aac => js "aac"
  end.

(** [file.type.split('/')[1] || 'mp3'] *)
Definition extension (file : blob) : jsstring :=
  match nth_error (split 47 (blobType file)) 1 with
  | Some e => if truthy e then e else js "mp3"
  | None => js "mp3"
  end.

Definition inputName (file : blob) : jsstring := js "input." ++ extension file.
Definition outputName (f : format) : jsstring := js "output." ++ formatName f.

Section WithLibrary.

Variable lib : library.

(** [getFFmpeg].  The variable is assigned the new object before the
    load; the load completes on that very object. *)
Definition getFFmpeg : C instance :=
  cached <- readVariable ;;
  match cached with
  | Some ff => ret ff
  | None =>
      tell NewFFmpeg ;;;
      writeVariable (Some {| loaded := false |}) ;;;
      coreURL <- await (ToBlobURL (baseURL ++ js "/ffmpeg-core.js") (js "text/javascript"))
                   (toBlobURL lib (baseURL ++ js "/ffmpeg-core.js") (js "text/javascript")) ;;
      wasmURL <- await (ToBlobURL (baseURL ++ js "/ffmpeg-core.wasm") (js "application/wasm"))
                   (toBlobURL lib (baseURL ++ js "/ffmpeg-core.wasm") (js "application/wasm")) ;;
      await (Load coreURL wasmURL) (load lib coreURL wasmURL) ;;;
      writeVariable (Some {| loaded := true |}) ;;;
      ret {| loaded := true |}
  end.

(** [convertAudio]; [onProgress] tells whether the callback was given. *)
Definition convertAudio (file : blob) (targetFormat : format) (onProgress : bool)
    : C blob :=
  ff <- getFFmpeg ;;
  (if onProgress then (f <- newFunction ;; tell (On f)) else ret tt) ;;;
  data <- await (FetchFile file) (fetchFile lib file) ;;
  await (WriteFile (inputName file) data) (writeFile lib (inputName file) data) ;;;
  await (Exec [js "-i"; inputName file; outputName targetFormat])
    (exec lib [js "-i"; inputName file; outputName targetFormat]) ;;;
  data <- await (ReadFile (outputName targetFormat))
            (readFile lib (outputName targetFormat)) ;;
  await (DeleteFile (inputName file)) (deleteFile lib (inputName file)) ;;;
  await (DeleteFile (outputName targetFormat))
    (deleteFile lib (outputName targetFormat)) ;;;
  (if onProgress then (g <- newFunction ;; tell (Off g)) else ret tt) ;;;
  ret {| blobType := js "audio/" ++ formatName targetFormat; blobBytes := data |}.

End WithLibrary.

(** The progress listeners that the FFmpeg object holds after some calls,
    having held [ls] before: [on] adds the function it is given, [off]
    removes the function it is given. *)
Fixpoint listenersAfter (calls : list call) (ls : list nat) : list nat :=
  match calls with
  | [] => ls
  | On f :: rest => listenersAfter rest (ls ++ [f])
  | Off f :: rest => listenersAfter rest (filter (fun g => negb (Nat.eqb g f)) ls)
  | _ :: rest => listenersAfter rest ls
  end.

Definition isDelete (c : call) : bool :=
  match c with
  | DeleteFile _ => true
  | _ => false
  end.

Definition isOff (c : call) : bool :=
  match c with
  | Off _ => true
  | _ => false
  end.

(** A library in which every call succeeds, and one in which nothing can
    be fetched. *)
Definition working : library :=
  {| toBlobURL := fun url _ => Returns (js "blob:" ++ url);
     load := fun _ _ => Returns tt;
     fetchFile := fun file => Returns (blobBytes file);
     writeFile := fun _ _ => Returns tt;
     exec := fun _ => Returns 0%N;
     readFile := fun _ => Returns [255; 251]%N;
     deleteFile := fun _ => Returns tt |}.

Definition unplugged : library :=
  {| toBlobURL := fun _ _ => Throws;
     load := fun _ _ => Throws;
     fetchFile := fun file => Returns (blobBytes file);
     writeFile := fun _ _ => Throws;
     exec := fun _ => Throws;
     readFile := fun _ => Throws;
     deleteFile := fun _ => Throws |}.

Definition freshMemory : memory := {| ffmpeg := None; functions := 0 |}.

End Ffmpeg.

(** * Properties *)

(** ** The matcher and the words of a regular expression *)

Module RegexFacts.

Import JsString Regex.

Lemma consumed_app (w s' : jsstring) : consumed (w ++ s') s' = w.
Proof.
  unfold consumed. rewrite length_app, Nat.add_sub.
  rewrite firstn_app, Nat.sub_diag, firstn_all. simpl.
  apply app_nil_r.
Qed.

Lemma take_drop_while p (s : jsstring) :
  s = take_while p s ++ drop_while p s.
Proof.
  induction s as [|c s IH]; simpl; [reflexivity|].
  destruct (p c); simpl; [f_equal; exact IH | reflexivity].
Qed.

Lemma consumed_drop_while p (s : jsstring) :
  consumed s (drop_while p s) = take_while p s.
Proof.
  rewrite (take_drop_while p s) at 1. apply consumed_app.
Qed.

Section Rep.
Context {A : Type}.
Implicit Type k : jsstring -> option A.

(** Whatever [rep] returns comes from the continuation, run after a
    repetition of the class of an allowed length. *)
Lemma rep_sound cls s : forall lo hi k res,
  rep cls lo hi s k = Some res ->
  exists w s', s = w ++ s' /\ forallb cls w = true /\
    lo <= length w /\ within hi (length w) /\ k s' = Some res.
Proof.
  induction s as [|c s IH]; intros lo hi k res H.
  - assert (Hstop : match lo with O => k [] | S _ => None end = Some res).
    { destruct hi as [[|h]|]; exact H. }
    destruct lo; [|discriminate].
    exists [], []. repeat split; auto. destruct hi; simpl; lia.
  - assert (Hstop : match lo with O => k (c :: s) | S _ => None end = Some res ->
              exists w s', c :: s = w ++ s' /\ forallb cls w = true /\
                lo <= length w /\ within hi (length w) /\ k s' = Some res).
    { intros Hs. destruct lo; [|discriminate].
      exists [], (c :: s). repeat split; auto. destruct hi; simpl; lia. }
    destruct hi as [[|h]|]; simpl in H; auto.
    + destruct (cls c) eqn:Hc; auto.
      destruct (rep cls (pred lo) (Some h) s k) eqn:Hr; auto.
      injection H as ->.
      apply IH in Hr. destruct Hr as (w & s' & -> & Hw & Hlo & Hhi & Hk).
      exists (c :: w), s'. simpl in *. rewrite Hc, Hw.
      repeat split; auto; lia.
    + destruct (cls c) eqn:Hc; auto.
      destruct (rep cls (pred lo) None s k) eqn:Hr; auto.
      injection H as ->.
      apply IH in Hr. destruct Hr as (w & s' & -> & Hw & Hlo & Hhi & Hk).
      exists (c :: w), s'. simpl in *. rewrite Hc, Hw.
      repeat split; auto; lia.
Qed.

(** If the continuation accepts what follows some allowed repetition,
    [rep] finds a match. *)
Lemma rep_complete cls w : forall lo hi s' k,
  forallb cls w = true -> lo <= length w -> within hi (length w) ->
  k s' <> None -> rep cls lo hi (w ++ s') k <> None.
Proof.
  induction w as [|c w IH]; intros lo hi s' k Hw Hlo Hhi Hk.
  - simpl in Hlo. assert (lo = 0) by lia; subst lo. simpl.
    destruct s' as [|c s'].
    + destruct hi as [[|h]|]; exact Hk.
    + destruct hi as [[|h]|]; simpl; auto.
      * destruct (cls c); auto.
        destruct (rep cls 0 (Some h) s' k); [discriminate | auto].
      * destruct (cls c); auto.
        destruct (rep cls 0 None s' k); [discriminate | auto].
  - simpl in Hw. apply andb_prop in Hw as [Hc Hw]. simpl in Hlo, Hhi.
    destruct hi as [[|h]|]; simpl in *; try lia.
    + rewrite Hc.
      specialize (IH (pred lo) (Some h) s' k Hw).
      destruct (rep cls (pred lo) (Some h) (w ++ s') k); [discriminate|].
      exfalso. apply IH; simpl; auto; lia.
    + rewrite Hc.
      specialize (IH (pred lo) None s' k Hw).
      destruct (rep cls (pred lo) None (w ++ s') k); [discriminate|].
      exfalso. apply IH; simpl; auto; lia.
Qed.

(** A star whose continuation never fails takes all it can. *)
Lemma rep_star_greedy cls s k :
  (forall s', k s' <> None) ->
  rep cls 0 None s k = k (drop_while cls s).
Proof.
  intros Hk. induction s as [|c s IH]; simpl; [reflexivity|].
  destruct (cls c); [|reflexivity].
  rewrite IH. destruct (k (drop_while cls s)) eqn:E; [reflexivity|].
  exfalso. exact (Hk _ E).
Qed.

End Rep.

Section Run.
Context {A : Type}.
Implicit Type k : jsstring -> captures -> option A.

Lemma run_sound r : forall s caps k res,
  group_free r = true ->
  run r s caps k = Some res ->
  exists w s', s = w ++ s' /\ Matches r w /\ k s' caps = Some res.
Proof.
  induction r as [c|cls lo hi|r1 IH1 r2 IH2|r IH|i r IH];
    intros s caps k res Hg H; simpl in *.
  - destruct s as [|x s]; [discriminate|].
    destruct (N.eqb x c) eqn:E; [|discriminate].
    apply N.eqb_eq in E; subst x.
    exists [c], s. auto.
  - apply rep_sound in H. destruct H as (w & s' & -> & Hw & Hlo & Hhi & Hk).
    exists w, s'. repeat split; auto.
  - apply andb_prop in Hg as [Hg1 Hg2].
    apply IH1 in H; auto. destruct H as (w1 & s1 & -> & M1 & H).
    apply IH2 in H; auto. destruct H as (w2 & s2 & -> & M2 & H).
    exists (w1 ++ w2), s2. rewrite app_assoc. repeat split; auto.
    exists w1, w2. auto.
  - destruct (run r s caps k) eqn:E.
    + injection H as ->. apply IH in E; auto.
      destruct E as (w & s' & -> & M & Hk). exists w, s'. auto.
    + exists [], s. auto.
  - discriminate.
Qed.

Lemma run_complete r : forall w s' caps k,
  group_free r = true ->
  Matches r w -> k s' caps <> None -> run r (w ++ s') caps k <> None.
Proof.
  induction r as [c|cls lo hi|r1 IH1 r2 IH2|r IH|i r IH];
    intros w s' caps k Hg M Hk; simpl in *.
  - subst w. simpl. rewrite N.eqb_refl. exact Hk.
  - destruct M as (Hw & Hlo & Hhi). apply rep_complete; auto.
  - apply andb_prop in Hg as [Hg1 Hg2].
    destruct M as (w1 & w2 & -> & M1 & M2).
    rewrite <- app_assoc. apply IH1; auto.
  - destruct (run r (w ++ s') caps k) eqn:E; [discriminate|].
    destruct M as [-> | M]; [exact Hk|].
    exfalso. revert E. apply IH; auto.
  - discriminate.
Qed.

End Run.

(** The leftmost position wins. *)
Lemma exec_some r s caps :
  exec r s = Some caps ->
  exists pre s', s = pre ++ s' /\ match_here r s' = Some caps /\
    forall p1 p2, pre = p1 ++ p2 -> p2 <> [] -> match_here r (p2 ++ s') = None.
Proof.
  induction s as [|c s IH]; simpl; intros H.
  - destruct (match_here r []) eqn:E; [|discriminate].
    injection H as ->. exists [], []. repeat split; auto.
    intros p1 p2 Hp. symmetry in Hp. apply app_eq_nil in Hp as [_ ->].
    congruence.
  - destruct (match_here r (c :: s)) eqn:E.
    + injection H as ->. exists [], (c :: s). repeat split; auto.
      intros p1 p2 Hp. symmetry in Hp. apply app_eq_nil in Hp as [_ ->].
      congruence.
    + apply IH in H. destruct H as (pre & s' & -> & Hm & Hleft).
      exists (c :: pre), s'. repeat split; auto.
      intros p1 p2 Hp Hne.
      destruct p1 as [|x p1]; simpl in Hp.
      * subst p2. exact E.
      * injection Hp as _ Hp. eauto.
Qed.

Lemma exec_none r s :
  exec r s = None <-> forall pre s', s = pre ++ s' -> match_here r s' = None.
Proof.
  induction s as [|c s IH]; simpl.
  - split.
    + intros H pre s' Hs. symmetry in Hs. apply app_eq_nil in Hs as [_ ->].
      destruct (match_here r []); [discriminate | reflexivity].
    + intros H. rewrite (H [] []); auto.
  - split.
    + intros H pre s' Hs.
      destruct (match_here r (c :: s)) eqn:E; [discriminate|].
      destruct pre as [|x pre]; simpl in Hs.
      * subst s'. exact E.
      * injection Hs as _ Hs. exact (proj1 IH H pre s' Hs).
    + intros H. rewrite (H [] (c :: s)); auto.
      apply (proj2 IH). intros pre s' ->. apply (H (c :: pre)). reflexivity.
Qed.

End RegexFacts.

(** ** The regular expression of the parser *)

Module TimeRegexFacts.

Import JsString Regex Parser RegexFacts.

Lemma is_digit_range c : is_digit c = true <-> (48 <= c <= 57)%N.
Proof.
  unfold is_digit. rewrite andb_true_iff, !N.leb_le. reflexivity.
Qed.

(** The first group matches exactly the timestamps. *)
Lemma stampRegex_timestamp t : Matches stampRegex t <-> timestamp t.
Proof.
  unfold timestamp, digits. simpl. split.
  - intros (mm & w2 & -> & (Hmm & Hlo & Hhi) & c1 & w4 & -> & -> &
            ss & more & -> & (Hss & Hlo2 & Hhi2) & Hmore).
    exists mm, ss, more. repeat split; auto; try lia.
    + assert (length mm = 1 \/ length mm = 2) as [E|E] by lia; auto.
    + destruct Hmore as [-> | (c2 & ss' & -> & -> & Hs' & Hlo3 & Hhi3)]; auto.
      right. exists ss'. repeat split; auto. lia.
  - intros (mm & ss & more & -> & Hmm & (Hss & Hlen) & Hmore).
    exists mm, (js ":" ++ ss ++ more). repeat split.
    + destruct Hmm as [[H _]|[H _]]; exact H.
    + destruct Hmm as [[_ H]|[_ H]]; lia.
    + destruct Hmm as [[_ H]|[_ H]]; lia.
    + exists (js ":"), (ss ++ more). repeat split.
      exists ss, more. repeat split; auto; try lia.
      destruct Hmore as [-> | (ss' & -> & Hs' & Hl')]; auto.
      right. exists (js ":"), ss'. repeat split; auto; lia.
Qed.

(** A timestamp has digits and colons only. *)
Lemma timestamp_units t :
  timestamp t -> Forall (fun c => is_digit c = true \/ c = 58%N) t.
Proof.
  assert (Hd : forall w, forallb is_digit w = true ->
                 Forall (fun c => is_digit c = true \/ c = 58%N) w).
  { intros w Hw. rewrite forallb_forall in Hw. apply Forall_forall. auto. }
  intros (mm & ss & more & -> & Hmm & (Hss & _) & Hmore).
  apply Forall_app; split.
  - destruct Hmm as [[H _]|[H _]]; auto.
  - simpl. constructor; [auto|].
    apply Forall_app; split; auto.
    destruct Hmore as [-> | (ss' & -> & (Hs' & _))]; [constructor|].
    simpl. constructor; auto.
Qed.

Lemma timestamp_no_bracket t : timestamp t -> ~ In 93%N t.
Proof.
  intros Ht Hin. apply timestamp_units in Ht.
  rewrite Forall_forall in Ht. destruct (Ht _ Hin) as [H|H].
  - apply is_digit_range in H. lia.
  - discriminate.
Qed.

(** Where a separator occurs first decides both sides of it. *)
Lemma first_occurrence_unique (x : N) : forall w w' p p',
  ~ In x w -> ~ In x w' -> w ++ x :: p = w' ++ x :: p' -> w = w' /\ p = p'.
Proof.
  induction w as [|c w IH]; intros [|c' w'] p p' Hw Hw' E; simpl in *.
  - injection E as ->. auto.
  - injection E as -> _. exfalso. auto.
  - injection E as -> _. exfalso. auto.
  - injection E as -> E. apply IH in E; auto.
    destruct E as [-> ->]. auto.
Qed.

Lemma stampedAt_unique s t post t' post' :
  stampedAt s t post -> stampedAt s t' post' -> t = t' /\ post = post'.
Proof.
  intros [-> Ht] [E Ht']. simpl in E. injection E as E.
  apply first_occurrence_unique in E; auto using timestamp_no_bracket.
Qed.

(** What follows the first group: the closing bracket, white space, and
    the second group, which takes the text up to a line terminator. *)
Lemma after_stamp_bracket post caps :
  run (Chr 93 ;; Rep is_white 0 None ;; Group 2 (Rep is_dot 0 None))
      (93%N :: post) caps (fun _ c => Some c)
  = Some (set_capture 2 (textAfter post) caps).
Proof.
  cbn [run]. rewrite N.eqb_refl.
  rewrite rep_star_greedy.
  - rewrite rep_star_greedy by discriminate.
    rewrite consumed_drop_while. reflexivity.
  - intros s'. rewrite rep_star_greedy; discriminate.
Qed.

Lemma after_stamp_needs_bracket s caps res :
  run (Chr 93 ;; Rep is_white 0 None ;; Group 2 (Rep is_dot 0 None))
      s caps (fun _ c => Some c) = Some res ->
  exists post, s = 93%N :: post.
Proof.
  cbn [run]. destruct s as [|x s]; [discriminate|].
  destruct (N.eqb x 93) eqn:E; [|discriminate].
  apply N.eqb_eq in E; subst. eauto.
Qed.

Lemma stampRegex_group_free : group_free stampRegex = true.
Proof. reflexivity. Qed.

Lemma match_here_unfold s :
  match_here timeRegex s =
  match s with
  | [] => None
  | x :: s1 =>
      if N.eqb x 91 then
        run stampRegex s1 no_captures
          (fun s' caps' =>
             run (Chr 93 ;; Rep is_white 0 None ;; Group 2 (Rep is_dot 0 None))
               s' (set_capture 1 (consumed s1 s') caps') (fun _ c => Some c))
      else None
  end.
Proof. destruct s; reflexivity. Qed.

(** A match at the start of [s]: exactly when a bracketed timestamp starts
    there; the groups are the timestamp and the text after it. *)
Lemma match_here_sound s caps :
  match_here timeRegex s = Some caps ->
  exists t post, stampedAt s t post /\
    caps = set_capture 2 (textAfter post) (set_capture 1 t no_captures).
Proof.
  rewrite match_here_unfold.
  destruct s as [|x s1]; [discriminate|].
  destruct (N.eqb x 91) eqn:E; [|discriminate].
  apply N.eqb_eq in E; subst x. intros H.
  apply run_sound in H; [|apply stampRegex_group_free].
  destruct H as (t & s' & -> & Ht & H).
  destruct (after_stamp_needs_bracket _ _ H) as [post ->].
  rewrite after_stamp_bracket, consumed_app in H. injection H as <-.
  exists t, post. split; [|reflexivity].
  split; [reflexivity|]. apply stampRegex_timestamp, Ht.
Qed.

Lemma match_here_complete s t post :
  stampedAt s t post ->
  match_here timeRegex s
  = Some (set_capture 2 (textAfter post) (set_capture 1 t no_captures)).
Proof.
  intros Hs.
  destruct (match_here timeRegex s) as [caps|] eqn:E.
  - apply match_here_sound in E. destruct E as (t' & post' & Hs' & ->).
    destruct (stampedAt_unique Hs Hs') as [-> ->]. reflexivity.
  - exfalso. revert E. destruct Hs as [-> Ht].
    change (js "[" ++ t ++ js "]" ++ post) with (91%N :: t ++ 93%N :: post).
    rewrite match_here_unfold. rewrite N.eqb_refl.
    apply run_complete.
    + apply stampRegex_group_free.
    + apply stampRegex_timestamp, Ht.
    + rewrite after_stamp_bracket. discriminate.
Qed.

Lemma match_here_none s :
  match_here timeRegex s = None <-> forall t post, ~ stampedAt s t post.
Proof.
  split.
  - intros H t post Hs. rewrite (match_here_complete Hs) in H. discriminate.
  - intros H. destruct (match_here timeRegex s) as [caps|] eqn:E; [|reflexivity].
    apply match_here_sound in E. destruct E as (t & post & Hs & _).
    exfalso. exact (H _ _ Hs).
Qed.

(** The search finds a stamp that nothing precedes. *)
Lemma exec_first r : forall pre s caps,
  match_here r s = Some caps ->
  (forall p1 p2, pre = p1 ++ p2 -> p2 <> [] -> match_here r (p2 ++ s) = None) ->
  exec r (pre ++ s) = Some caps.
Proof.
  induction pre as [|c pre IH]; intros s caps Hm Hleft.
  - simpl. destruct s; simpl; rewrite Hm; reflexivity.
  - assert (H0 : match_here r (c :: pre ++ s) = None).
    { apply (Hleft [] (c :: pre)); [reflexivity | discriminate]. }
    simpl. rewrite H0.
    apply IH; auto.
    intros p1 p2 -> Hne. apply (Hleft (c :: p1)); auto.
Qed.

(** [line.match(timeRegex)] in terms of the line. *)
Lemma lineMatch_some line t x :
  lineMatch line = Some (t, x) <->
  exists pre post, firstStamp line pre t post /\ x = textAfter post.
Proof.
  unfold lineMatch. split.
  - destruct (exec timeRegex line) as [caps|] eqn:E; [|discriminate].
    intros H. injection H as <- <-.
    apply exec_some in E. destruct E as (pre & s' & -> & Hm & Hleft).
    apply match_here_sound in Hm. destruct Hm as (t & post & [-> Ht] & ->).
    exists pre, post. split; [|reflexivity].
    split; [reflexivity|]. split; [exact Ht|].
    intros p1 p2 t' post' Hp Hne Hs.
    specialize (Hleft p1 p2 Hp Hne).
    exact (proj1 (match_here_none _) Hleft _ _ Hs).
  - intros (pre & post & (-> & Ht & Hleft) & ->).
    rewrite (@exec_first timeRegex pre _
               (set_capture 2 (textAfter post) (set_capture 1 t no_captures))).
    + reflexivity.
    + apply match_here_complete. split; [reflexivity | exact Ht].
    + intros p1 p2 Hp Hne. apply match_here_none.
      intros t' post'. exact (Hleft p1 p2 t' post' Hp Hne).
Qed.

Lemma lineMatch_none line :
  lineMatch line = None <->
  forall pre t post, line = pre ++ js "[" ++ t ++ js "]" ++ post -> ~ timestamp t.
Proof.
  unfold lineMatch. split.
  - destruct (exec timeRegex line) as [caps|] eqn:E; [discriminate|].
    intros _ pre t post Hl Ht.
    pose proof (proj1 (exec_none timeRegex line) E pre _ Hl) as Hn.
    apply (proj1 (match_here_none _) Hn t post). split; auto.
  - intros H. destruct (exec timeRegex line) as [caps|] eqn:E; [|reflexivity].
    apply exec_some in E. destruct E as (pre & s' & -> & Hm & _).
    apply match_here_sound in Hm. destruct Hm as (t & post & [-> Ht] & _).
    exfalso. exact (H pre t post eq_refl Ht).
Qed.

Example lineMatch_hours :
  lineMatch (js "[1:23:45] ok") = Some (js "1:23:45", js "ok").
Proof. vm_compute. reflexivity. Qed.

Example lineMatch_three_digits : lineMatch (js "[123:45] no") = None.
Proof. vm_compute. reflexivity. Qed.

Example lineMatch_four_groups : lineMatch (js "[1:23:45:67] no") = None.
Proof. vm_compute. reflexivity. Qed.

Example lineMatch_second_bracket :
  lineMatch (js "[1:2] [12:34:56]z") = Some (js "12:34:56", js "z").
Proof. vm_compute. reflexivity. Qed.

Example lineMatch_carriage_return :
  lineMatch (js "[00:05] Hello" ++ [13%N]) = Some (js "00:05", js "Hello").
Proof. vm_compute. reflexivity. Qed.

Lemma lineMatch_timestamp line t x :
  lineMatch line = Some (t, x) -> timestamp t.
Proof.
  intros H. apply lineMatch_some in H.
  destruct H as (pre & post & (_ & Ht & _) & _). exact Ht.
Qed.

End TimeRegexFacts.

(** ** The transcript parser *)

Module ParserProps.

Import JsString Regex Parser RegexFacts TimeRegexFacts.

Lemma parseLines_snoc lines l :
  parseLines (lines ++ [l]) = parseLine (parseLines lines) l.
Proof. unfold parseLines. rewrite fold_left_app. reflexivity. Qed.

Lemma appendToLast_snoc init c suffix :
  appendToLast (init ++ [c]) suffix
  = init ++ [{| time := time c; text := text c ++ suffix |}].
Proof.
  induction init as [|d init IH]; simpl; [reflexivity|].
  rewrite IH. destruct (init ++ [c]) eqn:E; [|reflexivity].
  destruct init; discriminate.
Qed.

Lemma drop_while_head p (s : jsstring) c s' :
  drop_while p s = c :: s' -> p c = false.
Proof.
  induction s as [|x s IH]; simpl; [discriminate|].
  destruct (p x) eqn:E; [exact IH|].
  intros H. injection H as <- _. exact E.
Qed.

Lemma drop_while_nil p (s : jsstring) :
  drop_while p s = [] -> forallb p s = true.
Proof.
  induction s as [|x s IH]; simpl; [reflexivity|].
  destruct (p x); [exact IH | discriminate].
Qed.

(** A trimmed string does not end in white space. *)
Lemma trim_last s w c : trim s = w ++ [c] -> is_white c = false.
Proof.
  unfold trim. intros H.
  apply (f_equal (@rev N)) in H.
  rewrite rev_involutive, rev_app_distr in H. simpl in H.
  exact (drop_while_head _ _ H).
Qed.

(** A blank line has white space only. *)
Lemma blank_white line : blank line -> forallb is_white line = true.
Proof.
  unfold blank, trim. intros H.
  apply (f_equal (@rev N)) in H. rewrite rev_involutive in H. simpl in H.
  apply drop_while_nil in H.
  destruct (drop_while is_white line) as [|c s'] eqn:E.
  - apply drop_while_nil, E.
  - exfalso. pose proof (drop_while_head _ _ E) as Hc.
    rewrite forallb_forall in H.
    rewrite (H c) in Hc; [discriminate|].
    apply -> in_rev. simpl. auto.
Qed.

Lemma blank_no_match line : blank line -> lineMatch line = None.
Proof.
  intros Hb. apply blank_white in Hb. rewrite forallb_forall in Hb.
  apply lineMatch_none. intros pre t post -> _.
  assert (H : is_white 91 = true).
  { apply Hb. apply in_or_app. right. simpl. auto. }
  discriminate.
Qed.

Lemma parseLine_blank chunks line : blank line -> parseLine chunks line = chunks.
Proof.
  intros Hb. unfold parseLine. rewrite (blank_no_match Hb).
  unfold blank in Hb. rewrite Hb. reflexivity.
Qed.

Lemma parseLines_blank lines : Forall blank lines -> parseLines lines = [].
Proof.
  induction lines as [|l lines IH] using rev_ind; intros H; [reflexivity|].
  apply Forall_app in H as [H1 H2]. inversion H2; subst.
  rewrite parseLines_snoc, IH, parseLine_blank; auto.
Qed.

Lemma truthy_not_blank line : ~ blank line -> truthy (trim line) = true.
Proof.
  unfold blank. destruct (trim line); [congruence | reflexivity].
Qed.

(** The first chunk keeps its time, and its text only grows. *)
Lemma parseLine_head c chunks line :
  exists more tail,
    parseLine (c :: chunks) line
    = {| time := time c; text := text c ++ more |} :: tail.
Proof.
  assert (Hid : c = {| time := time c; text := text c ++ [] |}).
  { rewrite app_nil_r. destruct c; reflexivity. }
  unfold parseLine. destruct (lineMatch line) as [[t x]|].
  - exists [], (chunks ++ [{| time := t; text := x |}]).
    simpl. rewrite <- Hid. reflexivity.
  - destruct (truthy (trim line)).
    + change (0 <? length (c :: chunks)) with true. cbv iota.
      destruct chunks as [|d chunks].
      * exists (js " " ++ trim line), []. reflexivity.
      * exists [], (appendToLast (d :: chunks) (js " " ++ trim line)).
        change (appendToLast (c :: d :: chunks) (js " " ++ trim line))
          with (c :: appendToLast (d :: chunks) (js " " ++ trim line)).
        rewrite <- Hid. reflexivity.
    + exists [], chunks. rewrite <- Hid. reflexivity.
Qed.

Lemma fold_parseLine_head lines : forall c chunks,
  exists more tail,
    fold_left parseLine lines (c :: chunks)
    = {| time := time c; text := text c ++ more |} :: tail.
Proof.
  induction lines as [|l lines IH]; intros c chunks.
  - exists [], chunks. simpl. rewrite app_nil_r. destruct c; reflexivity.
  - simpl. destruct (parseLine_head c chunks l) as (m1 & t1 & ->).
    destruct (IH {| time := time c; text := text c ++ m1 |} t1)
      as (m2 & t2 & ->).
    simpl. exists (m1 ++ m2), t2. rewrite app_assoc. reflexivity.
Qed.

(** C1, as the specification words it, fails on the code in two ways.
    The regular expression is not anchored: a line with text before the
    bracketed timestamp is emitted as a chunk although it does not have
    the shape "white space, timestamp, white space, remainder".  And the
    text of the chunk is the second group as it stands: leading white
    space is skipped, trailing white space is kept, whereas a trimmed
    remainder never ends in a space. *)
Lemma timestamp_line_not_as_specified :
  (parseLine [] (js "x [00:05] y") = [{| time := js "00:05"; text := js "y" |}]
   /\ forall t remainder, ~ specLinePattern (js "x [00:05] y") t remainder)
  /\
  (parseLine [] (js "[00:05] Hello ")
     = [{| time := js "00:05"; text := js "Hello " |}]
   /\ specLinePattern (js "[00:05] Hello ") (js "00:05") (js "Hello ")
   /\ forall remainder, trim remainder <> js "Hello ").
Proof.
  split; [split | split; [|split]].
  - vm_compute. reflexivity.
  - intros t r (ws1 & ws2 & H1 & _ & E & _).
    destruct ws1 as [|c ws1].
    + vm_compute in E. discriminate.
    + injection E as <- _. vm_compute in H1. discriminate.
  - vm_compute. reflexivity.
  - exists [], (js " "). repeat split.
    exists (js "00"), (js "05"), [].
    split; [reflexivity|]. split; [right; split; reflexivity|].
    split; [split; reflexivity | left; reflexivity].
  - intros r E.
    apply (@trim_last r (js "Hello") 32%N) in E. discriminate.
Qed.

(** C1, amended.  A line takes the timestamp branch exactly when a
    bracketed timestamp occurs somewhere in it.  The chunk pushed then has
    the leftmost such timestamp as its time and, as its text, what follows
    the closing bracket, from the first code unit that is not white space
    up to the first line terminator.  A line without a bracketed
    timestamp pushes no such chunk: it is a continuation or is skipped. *)
Theorem timestamp_line_chunk (line : jsstring) (chunks : list TranscriptionChunk) :
  ((exists pre t post, line = pre ++ js "[" ++ t ++ js "]" ++ post /\ timestamp t)
   -> exists pre t post, firstStamp line pre t post)
  /\
  (forall pre t post, firstStamp line pre t post ->
     parseLine chunks line = chunks ++ [{| time := t; text := textAfter post |}])
  /\
  ((forall pre t post, line = pre ++ js "[" ++ t ++ js "]" ++ post -> ~ timestamp t)
   -> parseLine chunks line =
      if truthy (trim line) then
        if 0 <? length chunks then appendToLast chunks (js " " ++ trim line)
        else chunks ++ [{| time := js "00:00"; text := trim line |}]
      else chunks).
Proof.
  split; [|split].
  - intros (pre & t & post & Hl & Ht).
    destruct (lineMatch line) as [[t' x]|] eqn:E.
    + apply lineMatch_some in E. destruct E as (pre' & post' & Hf & _).
      exists pre', t', post'. exact Hf.
    + exfalso. exact (proj1 (lineMatch_none line) E pre t post Hl Ht).
  - intros pre t post Hf.
    assert (E : lineMatch line = Some (t, textAfter post)).
    { apply lineMatch_some. exists pre, post. auto. }
    unfold parseLine. rewrite E. reflexivity.
  - intros Hnone. apply lineMatch_none in Hnone.
    unfold parseLine. rewrite Hnone. reflexivity.
Qed.

Lemma timestamp_line_chunk_witness :
  parseLine [] (js "x [00:05] y ")
  = [] ++ [{| time := js "00:05"; text := textAfter (js " y ") |}].
Proof.
  apply (proj1 (proj2 (timestamp_line_chunk (js "x [00:05] y ") []))
           (js "x ") (js "00:05") (js " y ")).
  split; [reflexivity | split].
  - exists (js "00"), (js "05"), [].
    split; [reflexivity|]. split; [right; split; reflexivity|].
    split; [split; reflexivity | left; reflexivity].
  - intros p1 p2 t' post' Hp Hne [E _].
    destruct p1 as [|a [|b [|c p1]]]; simpl in Hp.
    + subst p2. vm_compute in E. discriminate.
    + injection Hp as _ <-. vm_compute in E. discriminate.
    + injection Hp as _ _ <-. contradiction.
    + destruct p1; discriminate.
Defined.

(** A line with text before its bracketed timestamp does not have the
    shape of the specification's line pattern. *)
Lemma prefixed_line_not_spec t remainder :
  ~ specLinePattern (js "x [00:05] y") t remainder.
Proof.
  intros (ws1 & ws2 & H1 & _ & E & _).
  destruct ws1 as [|c ws1].
  - vm_compute in E. discriminate.
  - injection E as <- _. vm_compute in H1. discriminate.
Qed.

Lemma unstamped_no_match l : unstamped l -> lineMatch l = None.
Proof. intros H. exact (proj2 (lineMatch_none l) H). Qed.

Lemma no_match_unstamped l : lineMatch l = None -> unstamped l.
Proof. intros H. unfold unstamped. exact (proj1 (lineMatch_none l) H). Qed.

(** C2, as the specification words it, fails on the code.  The line
    [x [00:05] y] does not match the specification's line pattern and is
    not blank; processed after one chunk, it is not appended to that
    chunk: the regular expression finds the timestamp inside it and a
    second chunk is pushed. *)
Lemma continuation_not_as_specified :
  let l := js "x [00:05] y" in
  let c := {| time := js "00:01"; text := js "a" |} in
  (forall t remainder, ~ specLinePattern l t remainder)
  /\ ~ blank l
  /\ parseLines [js "[00:01] a"] = [] ++ [c]
  /\ parseLines ([js "[00:01] a"] ++ [l])
     = [c; {| time := js "00:05"; text := js "y" |}]
  /\ parseLines ([js "[00:01] a"] ++ [l])
     <> [] ++ [{| time := time c; text := text c ++ js " " ++ trim l |}]
  /\ parseTranscript (js "[00:01] a" ++ newline ++ l)
     = [c; {| time := js "00:05"; text := js "y" |}].
Proof.
  cbv zeta. split; [|split; [|split; [|split; [|split]]]].
  - exact prefixed_line_not_spec.
  - unfold blank. vm_compute. discriminate.
  - vm_compute. reflexivity.
  - vm_compute. reflexivity.
  - vm_compute. discriminate.
  - vm_compute. reflexivity.
Qed.

(** C2, amended.  A line in which no bracketed timestamp occurs and that
    is not blank, processed when chunks exist, appends a space and the
    trimmed line to the text of the last chunk; the chunks before it and
    all times stay as they are.  The text of the example gives the one
    chunk 00:05 "Hello world". *)
Theorem continuation_appends :
  (forall lines l init c,
     parseLines lines = init ++ [c] -> unstamped l -> ~ blank l ->
     parseLines (lines ++ [l])
     = init ++ [{| time := time c; text := text c ++ js " " ++ trim l |}])
  /\
  parseTranscript (js "[00:05] Hello" ++ newline ++ js "world")
  = [{| time := js "00:05"; text := js "Hello world" |}].
Proof.
  split; [|vm_compute; reflexivity].
  intros lines l init c Hl Hm Hb.
  rewrite parseLines_snoc, Hl. unfold parseLine.
  rewrite (unstamped_no_match Hm), (truthy_not_blank Hb).
  replace (0 <? length (init ++ [c])) with true.
  - apply appendToLast_snoc.
  - symmetry. apply Nat.ltb_lt. rewrite length_app. simpl. lia.
Qed.

Lemma continuation_appends_witness :
  parseLines ([js "[00:05] Hello"] ++ [js "world"])
  = [] ++ [{| time := js "00:05"; text := js "Hello" ++ js " " ++ trim (js "world") |}].
Proof.
  apply (proj1 continuation_appends [js "[00:05] Hello"] (js "world") []
           {| time := js "00:05"; text := js "Hello" |}).
  - vm_compute. reflexivity.
  - apply no_match_unstamped. vm_compute. reflexivity.
  - unfold blank. vm_compute. discriminate.
Defined.

(** C3, as the specification words it, fails on the code.  The first
    line of the text [x [00:05] y] is not blank and does not match the
    specification's line pattern, yet no chunk with time 00:00 is
    created: the regular expression finds the timestamp inside the line
    and the one chunk of the result has time 00:05. *)
Lemma stray_text_not_as_specified :
  let l := js "x [00:05] y" in
  split 10 l = [] ++ l :: []
  /\ ~ blank l
  /\ (forall t remainder, ~ specLinePattern l t remainder)
  /\ parseTranscript l = [{| time := js "00:05"; text := js "y" |}]
  /\ forall c, In c (parseTranscript l) -> time c <> js "00:00".
Proof.
  cbv zeta. split; [|split; [|split; [|split]]].
  - vm_compute. reflexivity.
  - unfold blank. vm_compute. discriminate.
  - exact prefixed_line_not_spec.
  - vm_compute. reflexivity.
  - intros c Hc.
    change (parseTranscript (js "x [00:05] y"))
      with [{| time := js "00:05"; text := js "y" |}] in Hc.
    destruct Hc as [<- | []]. vm_compute. discriminate.
Qed.

(** C3, amended.  When no bracketed timestamp occurs in the first line
    that is not blank, the parser opens a chunk with time 00:00 and the
    trimmed line as its text; that chunk stays the first one of the
    result, its text extended by the continuation lines that follow.  The
    text of the example gives the two chunks 00:00 "stray text" and 01:20
    "Next". *)
Theorem stray_text_bucket :
  (forall text blanks l rest,
     split 10 text = blanks ++ l :: rest ->
     Forall blank blanks -> ~ blank l -> unstamped l ->
     parseLines (blanks ++ [l]) = [{| time := js "00:00"; text := trim l |}]
     /\ exists more tail,
          parseTranscript text
          = {| time := js "00:00"; text := trim l ++ more |} :: tail)
  /\
  parseTranscript (js "stray text" ++ newline ++ js "[01:20] Next")
  = [{| time := js "00:00"; text := js "stray text" |};
     {| time := js "01:20"; text := js "Next" |}].
Proof.
  split; [|vm_compute; reflexivity].
  intros text blanks l rest Hs Hb Hl Hm.
  assert (E : parseLines (blanks ++ [l])
              = [{| time := js "00:00"; text := trim l |}]).
  { rewrite parseLines_snoc, (parseLines_blank Hb). unfold parseLine.
    rewrite (unstamped_no_match Hm), (truthy_not_blank Hl). reflexivity. }
  split; [exact E|].
  unfold parseTranscript. rewrite Hs.
  change (blanks ++ l :: rest) with (blanks ++ [l] ++ rest).
  rewrite app_assoc. unfold parseLines in *.
  rewrite fold_left_app, E.
  apply (fold_parseLine_head rest {| time := js "00:00"; text := trim l |} []).
Qed.

Lemma stray_text_bucket_witness :
  parseLines ([js " "] ++ [js "stray text"])
  = [{| time := js "00:00"; text := trim (js "stray text") |}].
Proof.
  apply (proj1 stray_text_bucket
           (js " " ++ newline ++ js "stray text" ++ newline ++ js "[01:20] Next")
           [js " "] (js "stray text") [js "[01:20] Next"]).
  - vm_compute. reflexivity.
  - repeat constructor.
  - unfold blank. vm_compute. discriminate.
  - apply no_match_unstamped. vm_compute. reflexivity.
Defined.

End ParserProps.

(** ** The seek mapping *)

Module SeekProps.

Import JsString Regex Parser TimeRegexFacts ParserProps Seek.

Lemma split_digits w :
  forallb is_digit w = true -> split 58 w = [w].
Proof.
  induction w as [|c w IH]; simpl; [reflexivity|].
  intros H. apply andb_prop in H as [Hc Hw].
  destruct (N.eqb c 58) eqn:E.
  - apply N.eqb_eq in E; subst c. discriminate.
  - rewrite (IH Hw). reflexivity.
Qed.

Lemma split_digits_colon w rest :
  forallb is_digit w = true ->
  split 58 (w ++ 58%N :: rest) = w :: split 58 rest.
Proof.
  induction w as [|c w IH]; simpl; [reflexivity|].
  intros H. apply andb_prop in H as [Hc Hw].
  destruct (N.eqb c 58) eqn:E.
  - apply N.eqb_eq in E; subst c. discriminate.
  - rewrite (IH Hw). reflexivity.
Qed.

(** A timestamp splits on the colon into its two or three groups of
    digits. *)
Lemma timestamp_split t :
  timestamp t ->
  exists mm ss, (digits 1 mm \/ digits 2 mm) /\ digits 2 ss /\
    (split 58 t = [mm; ss] \/
     exists ss', digits 2 ss' /\ split 58 t = [mm; ss; ss']).
Proof.
  intros (mm & ss & more & -> & Hmm & Hss & Hmore).
  exists mm, ss. split; [exact Hmm|]. split; [exact Hss|].
  assert (Dmm : forallb is_digit mm = true)
    by (destruct Hmm as [[H _]|[H _]]; exact H).
  destruct Hss as [Dss Lss].
  simpl. rewrite (@split_digits_colon mm _ Dmm).
  destruct Hmore as [-> | (ss' & -> & Ds' & Ls')].
  - left. rewrite app_nil_r, (@split_digits ss Dss). reflexivity.
  - right. exists ss'. split; [split; assumption|].
    simpl. rewrite (@split_digits_colon ss _ Dss), (@split_digits ss' Ds').
    reflexivity.
Qed.

Lemma appendToLast_times chunks suffix :
  map time (appendToLast chunks suffix) = map time chunks.
Proof.
  induction chunks as [|c chunks IH]; simpl; [reflexivity|].
  destruct chunks as [|d chunks]; [reflexivity|].
  change (map time (c :: appendToLast (d :: chunks) suffix)
          = time c :: map time (d :: chunks)).
  rewrite <- IH. reflexivity.
Qed.

Lemma midnight_timestamp : timestamp (js "00:00").
Proof.
  exists (js "00"), (js "00"), [].
  split; [reflexivity|]. split; [right; split; reflexivity|].
  split; [split; reflexivity | left; reflexivity].
Qed.

(** The loop keeps every time a timestamp. *)
Lemma parseLine_times chunks line :
  Forall timestamp (map time chunks) ->
  Forall timestamp (map time (parseLine chunks line)).
Proof.
  intros H. unfold parseLine.
  destruct (lineMatch line) as [[t x]|] eqn:E.
  - rewrite map_app. apply Forall_app. split; [exact H|].
    constructor; [|constructor]. exact (lineMatch_timestamp _ E).
  - destruct (truthy (trim line)); [|exact H].
    destruct (0 <? length chunks).
    + rewrite appendToLast_times. exact H.
    + rewrite map_app. apply Forall_app. split; [exact H|].
      constructor; [|constructor]. exact midnight_timestamp.
Qed.

Lemma parseLines_times lines :
  Forall timestamp (map time (parseLines lines)).
Proof.
  induction lines as [|l lines IH] using rev_ind; [constructor|].
  rewrite parseLines_snoc. apply parseLine_times, IH.
Qed.

Lemma digits_digitString n w : digits (S n) w -> digitString w.
Proof.
  intros [Hd Hl]. split; [|exact Hd]. intros ->. discriminate.
Qed.

(** C5.  The time of every chunk the parser produces splits on the colon
    into two or three parts, each a non-empty string of digits; the seek
    mapping applied to it therefore takes its two-part or its three-part
    branch, never the fallback. *)
Theorem parser_times_seekable (text : jsstring) (c : TranscriptionChunk) :
  In c (parseTranscript text) ->
  (exists m sec,
     split 58 (time c) = [m; sec] /\ digitString m /\ digitString sec /\
     forall Number : jsstring -> float,
       seekSeconds Number (time c) = (Number m * 60 + Number sec)%float)
  \/
  (exists h m sec,
     split 58 (time c) = [h; m; sec] /\
     digitString h /\ digitString m /\ digitString sec /\
     forall Number : jsstring -> float,
       seekSeconds Number (time c)
       = (Number h * 3600 + Number m * 60 + Number sec)%float).
Proof.
  intros Hin.
  assert (Ht : timestamp (time c)).
  { pose proof (parseLines_times (split 10 text)) as H.
    rewrite Forall_forall in H. apply H. apply in_map. exact Hin. }
  destruct (timestamp_split Ht) as (mm & ss & Hmm & Hss & Hsplit).
  assert (Pmm : digitString mm).
  { destruct Hmm as [H|H]; exact (digits_digitString H). }
  pose proof (digits_digitString Hss) as Pss.
  destruct Hsplit as [E | (ss' & Hs' & E)].
  - left. exists mm, ss.
    split; [exact E|]. split; [exact Pmm|]. split; [exact Pss|].
    intros Number. unfold seekSeconds. rewrite E. reflexivity.
  - right. pose proof (digits_digitString Hs') as Ps'.
    exists mm, ss, ss'.
    split; [exact E|]. split; [exact Pmm|]. split; [exact Pss|].
    split; [exact Ps'|].
    intros Number. unfold seekSeconds. rewrite E. reflexivity.
Qed.

Lemma parser_times_seekable_witness :
  exists m sec,
    split 58 (js "01:20") = [m; sec] /\ digitString m /\ digitString sec.
Proof.
  destruct (@parser_times_seekable
              (js "stray text" ++ newline ++ js "[01:20] Next")
              {| time := js "01:20"; text := js "Next" |})
    as [(m & sec & E & Hm & Hs & _) | (h & m & sec & E & _)].
  - vm_compute. right. left. reflexivity.
  - exists m, sec. auto.
  - vm_compute in E. discriminate.
Defined.

Lemma digitsNumber_on_digits : NumberOnDigits digitsNumber.
Proof.
  intros w Hd [Hlen _]. unfold digitsNumber. rewrite Hd.
  destruct w; [simpl in Hlen; lia | reflexivity].
Qed.

(** C4.  The seek mapping splits the time on the colon; three parts give
    hours, minutes and seconds, two parts give minutes and seconds, and
    any other number of parts gives 0.  With a conversion that reads
    strings of digits as decimal numbers, "01:02:03" maps to 3723 and
    "02:03" to 123. *)
Theorem seekSeconds_cases (Number : jsstring -> float) :
  NumberOnDigits Number ->
  (forall time,
     (forall h m sec, split 58 time = [h; m; sec] ->
        seekSeconds Number time
        = (Number h * 3600 + Number m * 60 + Number sec)%float)
     /\ (forall m sec, split 58 time = [m; sec] ->
        seekSeconds Number time = (Number m * 60 + Number sec)%float)
     /\ (length (split 58 time) <> 3 -> length (split 58 time) <> 2 ->
        seekSeconds Number time = 0%float))
  /\ seekSeconds Number (js "01:02:03") = 3723%float
  /\ seekSeconds Number (js "02:03") = 123%float.
Proof.
  intros HN.
  assert (N1 : Number (js "01") = 1%float)
    by (rewrite HN; [reflexivity | reflexivity | simpl; lia]).
  assert (N2 : Number (js "02") = 2%float)
    by (rewrite HN; [reflexivity | reflexivity | simpl; lia]).
  assert (N3 : Number (js "03") = 3%float)
    by (rewrite HN; [reflexivity | reflexivity | simpl; lia]).
  split; [|split].
  - intros time. unfold seekSeconds. split; [|split].
    + intros h m sec ->. reflexivity.
    + intros m sec ->. reflexivity.
    + intros H3 H2. rewrite length_map.
      apply Nat.eqb_neq in H3, H2. rewrite H3, H2. reflexivity.
  - unfold seekSeconds.
    change (split 58 (js "01:02:03")) with [js "01"; js "02"; js "03"].
    cbn [map length nth Nat.eqb]. rewrite N1, N2, N3. reflexivity.
  - unfold seekSeconds.
    change (split 58 (js "02:03")) with [js "02"; js "03"].
    cbn [map length nth Nat.eqb]. rewrite N2, N3. reflexivity.
Qed.

Lemma seekSeconds_cases_witness :
  seekSeconds digitsNumber (js "01:02:03") = 3723%float.
Proof.
  exact (proj1 (proj2 (seekSeconds_cases digitsNumber_on_digits))).
Defined.

End SeekProps.

(** ** The search filter *)

Module SearchProps.

Import JsString Parser Search.

Lemma starts_with_prefix s q :
  starts_with s q = true <-> exists post, s = q ++ post.
Proof.
  revert s. induction q as [|a q IH]; intros s; simpl.
  - split; eauto.
  - destruct s as [|b s].
    + split; [discriminate | intros [post H]; discriminate].
    + rewrite andb_true_iff, N.eqb_eq, IH. split.
      * intros [-> [post ->]]. eauto.
      * intros [post H]. injection H as -> ->. eauto.
Qed.

(** [includes] finds [q] exactly when [q] occurs in [s]. *)
Lemma includes_occurs s q :
  includes s q = true <-> occursIn q s.
Proof.
  unfold occursIn.
  induction s as [|c s IH]; simpl; rewrite orb_true_iff, starts_with_prefix.
  - split.
    + intros [[post H] | H]; [|discriminate]. exists [], post. exact H.
    + intros (pre & post & H). left.
      destruct pre; [eauto | discriminate].
  - rewrite IH. split.
    + intros [[post H] | (pre & post & ->)].
      * exists [], post. exact H.
      * exists (c :: pre), post. reflexivity.
    + intros (pre & post & H). destruct pre as [|x pre]; simpl in H.
      * left. eauto.
      * injection H as _ ->. right. eauto.
Qed.

Lemma includes_empty s : includes s [] = true.
Proof. destruct s; reflexivity. Qed.

Section WithCaseMapping.

Variable lowerUnit : N -> N.

Lemma sameIgnoringCase_map w q :
  sameIgnoringCase lowerUnit w q <-> map lowerUnit w = map lowerUnit q.
Proof.
  unfold sameIgnoringCase. split.
  - induction 1; simpl; congruence.
  - revert q. induction w as [|a w IH]; intros [|b q] H;
      try discriminate; constructor.
    + simpl in H. congruence.
    + apply IH. simpl in H. congruence.
Qed.

(** For a mapping of single code units, an occurrence after the mapping
    is containment up to case. *)
Lemma occurs_mapped t q :
  occursIn (map lowerUnit q) (map lowerUnit t)
  <-> containsIgnoringCase lowerUnit t q.
Proof.
  unfold occursIn, containsIgnoringCase. split.
  - intros (pre & post & H).
    apply map_eq_app in H. destruct H as (pre0 & rest & -> & _ & H).
    apply map_eq_app in H. destruct H as (w & post0 & -> & Hw & _).
    exists pre0, w, post0. split; [reflexivity|].
    apply sameIgnoringCase_map. exact Hw.
  - intros (pre & w & post & -> & Hw).
    apply sameIgnoringCase_map in Hw.
    exists (map lowerUnit pre), (map lowerUnit post).
    rewrite <- Hw, !map_app. reflexivity.
Qed.

End WithCaseMapping.

(** A filter keeps exactly the elements that satisfy what its test
    decides on the list. *)
Lemma filter_kept {A} (P : A -> Prop) (f : A -> bool) l :
  (forall x, In x l -> (f x = true <-> P x)) -> kept P l (filter f l).
Proof.
  induction l as [|x l IH]; intros Hf; simpl; [constructor|].
  assert (Hl : forall y, In y l -> (f y = true <-> P y)).
  { intros y Hy. apply Hf. right. exact Hy. }
  destruct (f x) eqn:E.
  - apply kept_take; [apply Hf; [left; reflexivity | exact E] | exact (IH Hl)].
  - apply kept_skip; [|exact (IH Hl)].
    intros HP. apply Hf in HP; [congruence | left; reflexivity].
Qed.

(** [kept] names one list: the subsequence is determined. *)
Lemma kept_unique {A} (P : A -> Prop) l : forall l1 l2,
  kept P l l1 -> kept P l l2 -> l1 = l2.
Proof.
  induction l as [|x l IH]; intros l1 l2 H1 H2;
    inversion H1; subst; inversion H2; subst;
    try reflexivity; try contradiction.
  - f_equal. auto.
  - auto.
Qed.

Lemma lower_of_empty toLowerCase :
  LowerOnAscii toLowerCase -> toLowerCase [] = [].
Proof. intros HL. apply (HL []). constructor. Qed.

Lemma filter_empty_query toLowerCase chunks :
  toLowerCase [] = [] -> filteredTranscription toLowerCase chunks [] = chunks.
Proof.
  intros E. unfold filteredTranscription. rewrite E.
  induction chunks as [|c chunks IH]; [reflexivity|].
  simpl. rewrite includes_empty, IH. reflexivity.
Qed.

Lemma lowerAfter_ascii s : forall b,
  isAscii s -> lowerAfter b s = map asciiLower s.
Proof.
  induction s as [|c s IH]; intros b Hs; [reflexivity|].
  inversion Hs as [|? ? Hc Hs']; subst.
  cbn [lowerAfter map]. rewrite (IH _ Hs').
  assert (E931 : N.eqb c 931 = false) by (apply N.eqb_neq; lia).
  rewrite E931. cbn [andb]. f_equal.
  unfold lowerLetter, asciiLower.
  destruct ((65 <=? c)%N && (c <=? 90)%N); [reflexivity|].
  assert (E913 : N.leb 913 c = false) by (apply N.leb_gt; lia).
  rewrite E913. reflexivity.
Qed.

Lemma standardLower_on_ascii : LowerOnAscii standardLower.
Proof. intros s Hs. apply lowerAfter_ascii, Hs. Qed.

(** C6, as the specification words it, fails on the code.  The text of
    two Greek capitals, alpha and sigma, contains the query, the capital
    sigma, as it stands, and so up to case whatever case mapping is
    meant.  But the sigma at the end of the text lower-cases to the final
    sigma and the sigma of the query to the other one: the filter drops
    the chunk, and what it returns is not the subsequence of the chunks
    that contain the query. *)
Lemma search_drops_final_sigma :
  let chunks := [{| time := js "00:05"; text := [913%N; 931%N] |}] in
  let query := [931%N] in
  standardLower [913%N; 931%N] = [945%N; 962%N]
  /\ standardLower query = [963%N]
  /\ filteredTranscription standardLower chunks query = []
  /\ forall lowerUnit,
       containsIgnoringCase lowerUnit [913%N; 931%N] query
       /\ ~ kept (fun chunk => containsIgnoringCase lowerUnit (text chunk) query)
            chunks (filteredTranscription standardLower chunks query).
Proof.
  cbv zeta. split; [|split; [|split]]; try reflexivity.
  intros lowerUnit.
  assert (Hc : containsIgnoringCase lowerUnit [913%N; 931%N] [931%N]).
  { exists [913%N], [931%N], []. split; [reflexivity|].
    repeat constructor. }
  split; [exact Hc|].
  change (filteredTranscription standardLower
            [{| time := js "00:05"; text := [913%N; 931%N] |}] [931%N])
    with (@nil TranscriptionChunk).
  intros H. inversion H; subst. contradiction.
Qed.

(** C6, amended.  The search filter returns exactly the chunks whose
    lower-cased text contains the lower-cased query, in their original
    order; with the empty query it returns all chunks.  When the texts
    and the query are ASCII, these are exactly the chunks whose text
    contains the query as a case-insensitive substring; the query "he"
    keeps "Hello" and drops "World". *)
Theorem filteredTranscription_spec (toLowerCase : jsstring -> jsstring) :
  LowerOnAscii toLowerCase ->
  (forall chunks query,
     kept (fun chunk => occursIn (toLowerCase query) (toLowerCase (text chunk)))
       chunks (filteredTranscription toLowerCase chunks query))
  /\ (forall chunks, filteredTranscription toLowerCase chunks [] = chunks)
  /\ (forall chunks query,
        isAscii query -> Forall (fun chunk => isAscii (text chunk)) chunks ->
        kept (fun chunk => containsIgnoringCase asciiLower (text chunk) query)
          chunks (filteredTranscription toLowerCase chunks query))
  /\ (forall t1 t2,
        filteredTranscription toLowerCase
          [{| time := t1; text := js "Hello" |};
           {| time := t2; text := js "World" |}] (js "he")
        = [{| time := t1; text := js "Hello" |}]).
Proof.
  intros HL. split; [|split; [|split]].
  - intros chunks query. unfold filteredTranscription.
    apply filter_kept. intros chunk _. apply includes_occurs.
  - intros chunks. apply filter_empty_query, lower_of_empty, HL.
  - intros chunks query Hq Hc. unfold filteredTranscription.
    apply filter_kept. intros chunk Hin.
    rewrite Forall_forall in Hc.
    rewrite (HL _ Hq), (HL _ (Hc _ Hin)), includes_occurs.
    apply occurs_mapped.
  - intros t1 t2. unfold filteredTranscription. cbn [filter text].
    rewrite !HL by (vm_compute; repeat constructor).
    reflexivity.
Qed.

Lemma filteredTranscription_spec_witness :
  filteredTranscription standardLower
    [{| time := js "00:05"; text := js "Hello" |};
     {| time := js "00:09"; text := js "World" |}] (js "he")
  = [{| time := js "00:05"; text := js "Hello" |}].
Proof.
  exact (proj2 (proj2 (proj2 (filteredTranscription_spec standardLower_on_ascii)))
           (js "00:05") (js "00:09")).
Defined.

End SearchProps.

(** ** The audio proxy *)

Module ProxyProps.

Import JsString Proxy.

Ltac run_route :=
  unfold handler, serverRoute, proxyAudio, isolationHeaders, tryCatch, bind,
    await, res_status, res_json, res_send, res_setHeader, ret, getHeader;
  cbn.

Lemma route_missing_url fetch route req :
  entryPoint fetch route ->
  query_url req = None \/ query_url req = Some [] ->
  statusCode (route req) = 400%N /\
  sent (route req) = Some (Json (js "URL is required")).
Proof.
  intros [-> | ->] [H | H]; run_route; rewrite H; cbn; auto.
Qed.

Lemma route_upstream_failed fetch route req url up :
  entryPoint fetch route ->
  query_url req = Some url -> truthy url = true ->
  fetch url = Returns up -> ok up = false ->
  statusCode (route req) = status up /\
  sent (route req) = Some (Json (js "Failed to fetch audio")).
Proof.
  intros [-> | ->] Hq Hu Hf Hok; run_route;
    rewrite Hq, Hu; cbn; rewrite Hf, Hok; cbn; auto.
Qed.

Lemma route_exception fetch route req url :
  entryPoint fetch route ->
  query_url req = Some url -> truthy url = true ->
  (fetch url = Throws \/
   exists up, fetch url = Returns up /\ ok up = true /\ arrayBuffer up = Throws) ->
  statusCode (route req) = 500%N /\
  sent (route req) = Some (Json (js "Failed to fetch audio")).
Proof.
  intros [-> | ->] Hq Hu [Hf | (up & Hf & Hok & Hb)]; run_route;
    rewrite Hq, Hu; cbn; rewrite Hf; cbn; auto;
    rewrite Hok; cbn;
    destruct (contentType up) as [ct|]; [destruct (truthy ct)| | destruct (truthy ct)|];
    cbn; rewrite Hb; cbn; auto.
Qed.

Lemma route_bytes fetch route req url up bytes :
  entryPoint fetch route ->
  query_url req = Some url -> truthy url = true ->
  fetch url = Returns up -> ok up = true -> arrayBuffer up = Returns bytes ->
  statusCode (route req) = 200%N /\
  sent (route req) = Some (Buffer bytes) /\
  getHeader "Content-Type" (route req) =
    match contentType up with
    | Some ct => if truthy ct then Some ct else None
    | None => None
    end.
Proof.
  intros [-> | ->] Hq Hu Hf Hok Hb; run_route;
    rewrite Hq, Hu; cbn; rewrite Hf; cbn; rewrite Hok; cbn;
    destruct (contentType up) as [ct|]; [destruct (truthy ct)| | destruct (truthy ct)|];
    cbn; rewrite Hb; cbn; auto.
Qed.

(** C7.  For the handler of the proxy, in the server route as in the
    serverless function: without a [url] the response is 400 with the JSON
    body [{error: "URL is required"}]; when the upstream answers with a
    status that is not ok, that status with a JSON error body; when the
    fetch or the reading of the body throws, 500 with a JSON error body;
    otherwise the bytes of the upstream, with its content type when it
    names one. *)
Theorem proxy_audio_responses (fetch : jsstring -> outcome upstream)
    (route : request -> response) (req : request) :
  entryPoint fetch route ->
  (query_url req = None \/ query_url req = Some [] ->
     statusCode (route req) = 400%N /\
     sent (route req) = Some (Json (js "URL is required")))
  /\
  (forall url, query_url req = Some url -> truthy url = true ->
     match fetch url with
     | Throws =>
         statusCode (route req) = 500%N /\
         sent (route req) = Some (Json (js "Failed to fetch audio"))
     | Returns up =>
         if ok up then
           match arrayBuffer up with
           | Throws =>
               statusCode (route req) = 500%N /\
               sent (route req) = Some (Json (js "Failed to fetch audio"))
           | Returns bytes =>
               statusCode (route req) = 200%N /\
               sent (route req) = Some (Buffer bytes) /\
               getHeader "Content-Type" (route req) =
                 match contentType up with
                 | Some ct => if truthy ct then Some ct else None
                 | None => None
                 end
           end
         else
           statusCode (route req) = status up /\
           sent (route req) = Some (Json (js "Failed to fetch audio"))
     end).
Proof.
  intros He. split.
  - intros Hq. apply (route_missing_url req He Hq).
  - intros url Hq Hu.
    destruct (fetch url) as [up|] eqn:Hf.
    + destruct (ok up) eqn:Hok.
      * destruct (arrayBuffer up) as [bytes|] eqn:Hb.
        -- apply (route_bytes req He Hq Hu Hf Hok Hb).
        -- apply (route_exception req He Hq Hu). right. eauto.
      * apply (route_upstream_failed req He Hq Hu Hf Hok).
    + apply (route_exception req He Hq Hu). auto.
Qed.

Lemma proxy_audio_responses_witness :
  statusCode (handler (fun _ => Throws) {| query_url := None |}) = 400%N /\
  sent (handler (fun _ => Throws) {| query_url := None |})
  = Some (Json (js "URL is required")).
Proof.
  apply (proj1 (@proxy_audio_responses (fun _ => Throws)
                  (handler (fun _ => Throws)) {| query_url := None |}
                  (or_introl eq_refl))).
  left. reflexivity.
Defined.

End ProxyProps.

(** ** The simulated progress *)

Module ProgressProps.

Import JsString JsNumber Progress Proxy App.
Local Open Scope float_scope.

Lemma ticks_add n m v : ticks (n + m) v = ticks m (ticks n v).
Proof.
  revert v; induction n as [|n IH]; intros v; simpl; [reflexivity|].
  apply IH.
Qed.

Lemma ticks_succ n v : ticks (S n) v = progressStep (ticks n v).
Proof.
  replace (S n) with (n + 1)%nat by lia. rewrite ticks_add. reflexivity.
Qed.

Lemma ticks_fixed n v : progressStep v = v -> ticks n v = v.
Proof.
  intros Hv; induction n as [|n IH]; simpl; [reflexivity|].
  rewrite Hv; exact IH.
Qed.

Lemma orbit_ticks n v k : (k <= n)%nat -> In (ticks k v) (orbit n v).
Proof.
  revert v k; induction n as [|n IH]; intros v k Hk.
  - assert (k = O) by lia; subst; simpl; auto.
  - destruct k as [|k]; simpl; [auto|].
    right; apply IH; lia.
Qed.

(** After [settle] firings the counter has passed 90 and stays put. *)
Lemma settled : progressStep (ticks settle 0) = ticks settle 0.
Proof. vm_compute. reflexivity. Qed.

(** Up to there, every value is below 100. *)
Lemma orbit_below :
  forallb (fun v => ltb v 100) (orbit settle 0) = true.
Proof. vm_compute. reflexivity. Qed.

Lemma ticks_below n : ltb (ticks n 0) 100 = true.
Proof.
  pose proof orbit_below as Hall. rewrite forallb_forall in Hall.
  destruct (Nat.le_gt_cases n settle) as [Hle|Hgt].
  - apply Hall, orbit_ticks, Hle.
  - replace n with (settle + (n - settle))%nat by lia.
    rewrite ticks_add, ticks_fixed by apply settled.
    apply Hall, orbit_ticks. lia.
Qed.

(** While the response is awaited, the state holds the counter. *)
Lemma transcribePending_progress n s :
  transcriptionProgress (transcribePending n s) = ticks n 0.
Proof.
  unfold transcribePending.
  induction n as [|n IH]; [reflexivity|].
  rewrite ticks_succ, <- IH. reflexivity.
Qed.

(** C8.  The simulated progress started at 0 is strictly below 100 after
    every number of firings of the interval, and so is the progress in the
    state while [handleTranscribe] awaits the response; the action leaves
    the progress at 100 exactly when the response has arrived. *)
Theorem progress_below_100 :
  (forall n, ltb (ticks n 0) 100 = true)
  /\
  (forall env n s file,
     audioFile s = Some file ->
     ltb (transcriptionProgress (transcribePending n s)) 100 = true
     /\ (transcriptionProgress (fst (handleTranscribe env n s)) = 100
         <-> exists response, generateContent env file = Returns (Some response))).
Proof.
  split; [exact ticks_below|].
  intros env n s file Hfile.
  rewrite transcribePending_progress. split; [apply ticks_below|].
  assert (Hne : ticks n 0 <> 100).
  { intros E. pose proof (ticks_below n) as H. rewrite E in H. discriminate. }
  unfold handleTranscribe. rewrite Hfile.
  destruct (generateContent env file) as [[response|]|]; cbn.
  - split; eauto.
  - rewrite transcribePending_progress.
    split; [contradiction | intros [r Hr]; discriminate].
  - rewrite transcribePending_progress.
    split; [contradiction | intros [r Hr]; discriminate].
Qed.

Lemma progress_below_100_witness :
  ltb (transcriptionProgress (transcribePending 200 loadedState)) 100 = true.
Proof.
  apply (proj2 progress_below_100 offline 200%nat loadedState sampleBlob).
  reflexivity.
Defined.

End ProgressProps.

(** ** The actions of the component *)

Module AppProps.

Import JsString Parser Proxy App.

(** C9, as the specification words it, fails on the code: an action
    invoked without its input shows no message.  From the initial state,
    where the URL is empty and no audio is loaded, none of the three
    actions raises an alert. *)
Lemma missing_input_shows_no_message :
  alerts (snd (handleUrlSubmit offline initialState)) = []
  /\ alerts (snd (handleTranscribe offline 0 initialState)) = []
  /\ alerts (snd (handleConvert offline initialState)) = [].
Proof. repeat split. Qed.

(** C9, amended.  An action invoked without its input (an empty URL for
    the load, no audio file for the transcription and the conversion)
    returns at once, shows no message and leaves the state as it was. *)
Theorem missing_input_is_ignored (env : environment) (s : state) :
  (inputUrl s = [] ->
     fst (handleUrlSubmit env s) = s /\
     alerts (snd (handleUrlSubmit env s)) = [])
  /\
  (audioFile s = None ->
     (forall n, fst (handleTranscribe env n s) = s /\
                alerts (snd (handleTranscribe env n s)) = [])
     /\ fst (handleConvert env s) = s
     /\ alerts (snd (handleConvert env s)) = []).
Proof.
  split.
  - intros H. unfold handleUrlSubmit. rewrite H. auto.
  - intros H. unfold handleTranscribe, handleConvert. rewrite H. auto.
Qed.

Lemma missing_input_is_ignored_witness :
  fst (handleUrlSubmit online initialState) = initialState /\
  alerts (snd (handleUrlSubmit online initialState)) = [].
Proof.
  apply (proj1 (missing_input_is_ignored online initialState)).
  reflexivity.
Defined.

(** C10.  A successful load, from the file picker or from a URL through
    the proxy, empties the transcription and clears the converted URL; the
    search query and the target format keep their values. *)
Theorem load_resets_results (env : environment) (s : state) :
  (forall file,
     let s' := handleFileUpload env (Some file) s in
     audioFile s' = Some file /\
     transcription s' = [] /\ convertedUrl s' = None /\
     searchQuery s' = searchQuery s /\ targetFormat s' = targetFormat s)
  /\
  (forall response b,
     truthy (inputUrl s) = true ->
     fetchProxy env (inputUrl s) = Returns response ->
     response_ok response = true ->
     response_blob response = Returns b ->
     let s' := fst (handleUrlSubmit env s) in
     audioFile s' = Some b /\
     transcription s' = [] /\ convertedUrl s' = None /\
     searchQuery s' = searchQuery s /\ targetFormat s' = targetFormat s).
Proof.
  split.
  - intros file. cbn. auto.
  - intros response b Hu Hf Hok Hb. unfold handleUrlSubmit.
    rewrite Hu, Hf, Hok, Hb. cbn. auto.
Qed.

Lemma load_resets_results_witness :
  let s' := fst (handleUrlSubmit online busyState) in
  audioFile s' = Some sampleBlob /\
  transcription s' = [] /\ convertedUrl s' = None /\
  searchQuery s' = js "he" /\ targetFormat s' = aac.
Proof.
  apply (proj2 (load_resets_results online busyState)
           {| response_ok := true; response_blob := Returns sampleBlob |}
           sampleBlob);
    reflexivity.
Defined.

End AppProps.

(** ** The transcript as a whole *)

Module TranscriptProps.

Import JsString Regex Parser RegexFacts TimeRegexFacts ParserProps SeekProps.
Import Transcript WordExport.

Lemma white_blank line : forallb is_white line = true -> blank line.
Proof.
  intros H. unfold blank, trim.
  assert (E : drop_while is_white line = []).
  { induction line as [|c line IH]; simpl in *; [reflexivity|].
    apply andb_prop in H as [Hc Hl]. rewrite Hc. auto. }
  rewrite E. reflexivity.
Qed.

Lemma split_parts_white text :
  forallb is_white text = true ->
  Forall (fun l => forallb is_white l = true) (split 10 text).
Proof.
  induction text as [|c text IH]; simpl; intros H.
  - repeat constructor.
  - apply andb_prop in H as [Hc Ht]. specialize (IH Ht).
    destruct (N.eqb c 10).
    + constructor; [reflexivity | exact IH].
    + destruct (split 10 text) as [|part parts]; [repeat constructor; simpl; rewrite Hc; reflexivity|].
      inversion IH; subst. constructor; [|assumption].
      simpl. rewrite Hc. assumption.
Qed.

Lemma white_parts_split text :
  Forall (fun l => forallb is_white l = true) (split 10 text) ->
  forallb is_white text = true.
Proof.
  induction text as [|c text IH]; simpl; intros H; [reflexivity|].
  destruct (N.eqb c 10) eqn:E.
  - apply N.eqb_eq in E; subst c. inversion H; subst. simpl. auto.
  - destruct (split 10 text) as [|part parts] eqn:Es.
    + inversion H; subst. simpl in *.
      apply andb_prop in H2 as [Hc _]. rewrite Hc. apply IH. constructor.
    + inversion H; subst. simpl in *.
      apply andb_prop in H2 as [Hc Hp]. rewrite Hc. apply IH.
      constructor; assumption.
Qed.

Lemma appendToLast_nonempty chunks suffix :
  chunks <> [] -> appendToLast chunks suffix <> [].
Proof.
  destruct chunks as [|c [|d chunks]]; simpl; congruence.
Qed.

(** A line leaves no chunk only if there was none and the line is blank. *)
Lemma parseLine_nil chunks line :
  parseLine chunks line = [] -> chunks = [] /\ blank line.
Proof.
  unfold parseLine, blank.
  destruct (lineMatch line) as [[t x]|].
  - intros H. apply app_eq_nil in H as [_ H]. discriminate.
  - destruct (trim line) as [|c w]; simpl; [auto|].
    destruct chunks as [|d chunks]; simpl; [discriminate|].
    intros H. exfalso. revert H.
    apply (@appendToLast_nonempty (d :: chunks)). discriminate.
Qed.

Lemma parseLines_nil lines : parseLines lines = [] -> Forall blank lines.
Proof.
  induction lines as [|l lines IH] using rev_ind; intros H; [constructor|].
  rewrite parseLines_snoc in H. apply parseLine_nil in H as [H Hl].
  apply Forall_app. split; [exact (IH H) | repeat constructor; exact Hl].
Qed.

Lemma white_text_no_chunks text :
  forallb is_white text = true -> parseTranscript text = [].
Proof.
  intros H. apply parseLines_blank.
  eapply Forall_impl; [|exact (split_parts_white _ H)].
  intros l. apply white_blank.
Qed.

(** X1.  The parser gives no chunk exactly when the response text
    consists of white space only (line feeds included). *)
Theorem empty_transcript_iff_white (text : jsstring) :
  parseTranscript text = [] <-> forallb is_white text = true.
Proof.
  unfold parseTranscript. split.
  - intros H. apply parseLines_nil in H. apply white_parts_split.
    eapply Forall_impl; [|exact H]. intros l. apply blank_white.
  - apply white_text_no_chunks.
Qed.

(** Once a chunk exists, a line adds its timestamp, if it has one, and
    nothing else to the times. *)
Lemma parseLine_adds_stamp chunks l :
  chunks <> [] ->
  map time (parseLine chunks l) = map time chunks ++ stampOf l
  /\ parseLine chunks l <> [].
Proof.
  intros Hne. unfold parseLine, stampOf.
  destruct (lineMatch l) as [[t x]|].
  - rewrite map_app. split; [reflexivity|].
    destruct chunks; discriminate.
  - rewrite app_nil_r. destruct (truthy (trim l)); [|auto].
    destruct chunks as [|c chunks]; [congruence|].
    change (0 <? length (c :: chunks)) with true. cbv iota.
    split; [apply appendToLast_times|].
    apply appendToLast_nonempty. discriminate.
Qed.

Lemma fold_parseLine_times lines : forall chunks,
  chunks <> [] ->
  map time (fold_left parseLine lines chunks)
  = map time chunks ++ stamps lines.
Proof.
  induction lines as [|l lines IH]; intros chunks Hne; simpl.
  - rewrite app_nil_r. reflexivity.
  - destruct (parseLine_adds_stamp l Hne) as [E Hne'].
    rewrite (IH _ Hne'), E, <- app_assoc. reflexivity.
Qed.

(** What the first lines do while no chunk exists. *)
Lemma parseLine_first l :
  parseLine [] l =
  match lineMatch l with
  | Some (t, x) => [{| time := t; text := x |}]
  | None =>
      if truthy (trim l) then [{| time := js "00:00"; text := trim l |}]
      else []
  end.
Proof.
  unfold parseLine. destruct (lineMatch l) as [[t x]|]; [reflexivity|].
  destruct (truthy (trim l)); reflexivity.
Qed.

Lemma stamps_length lines : length (stamps lines) <= length lines.
Proof.
  unfold stamps. induction lines as [|l lines IH]; simpl; [lia|].
  rewrite length_app. unfold stampOf at 1.
  destruct (lineMatch l) as [[t x]|]; simpl; lia.
Qed.

Lemma stray_stamps_length lines :
  length (stamps lines) + (if strayStart lines then 1 else 0) <= length lines.
Proof.
  induction lines as [|l lines IH]; simpl; [lia|].
  change (stamps (l :: lines)) with (stampOf l ++ stamps lines).
  rewrite length_app. unfold stampOf.
  destruct (lineMatch l) as [[t x]|]; simpl.
  - pose proof (stamps_length lines). lia.
  - destruct (truthy (trim l)); [|lia].
    pose proof (stamps_length lines). lia.
Qed.

(** X2.  The times of the chunks are the timestamps of the lines in the
    order of the lines, after one 00:00 when the first line that is not
    blank has no timestamp: the parser neither sorts nor drops nor
    repeats a timestamp, and it makes at most one chunk per line. *)
Theorem times_in_line_order (lines : list jsstring) :
  map time (parseLines lines)
  = (if strayStart lines then [js "00:00"] else []) ++ stamps lines
  /\ length (parseLines lines) <= length lines.
Proof.
  assert (E : map time (parseLines lines)
              = (if strayStart lines then [js "00:00"] else []) ++ stamps lines).
  { unfold parseLines.
    induction lines as [|l lines IH]; [reflexivity|].
    change (stamps (l :: lines)) with (stampOf l ++ stamps lines).
    simpl. rewrite parseLine_first. unfold stampOf.
    destruct (lineMatch l) as [[t x]|].
    - rewrite fold_parseLine_times by discriminate. reflexivity.
    - destruct (truthy (trim l)).
      + rewrite fold_parseLine_times by discriminate. reflexivity.
      + exact IH. }
  split; [exact E|].
  rewrite <- (length_map time), E, length_app.
  pose proof (stray_stamps_length lines) as Hs.
  destruct (strayStart lines); simpl in *; lia.
Qed.

Lemma take_while_all p (s : jsstring) :
  forallb p s = true -> take_while p s = s.
Proof.
  induction s as [|c s IH]; simpl; [reflexivity|].
  intros H. apply andb_prop in H as [Hc Hs]. rewrite Hc, IH; auto.
Qed.

Lemma take_while_forallb p (s : jsstring) :
  forallb p (take_while p s) = true.
Proof.
  induction s as [|c s IH]; simpl; [reflexivity|].
  destruct (p c) eqn:E; simpl; [rewrite E; exact IH | reflexivity].
Qed.

Lemma textAfter_plain post : plainText (textAfter post).
Proof.
  unfold plainText, textAfter. split; [apply take_while_forallb|].
  destruct (drop_while is_white post) as [|c d] eqn:E; simpl; [exact I|].
  destruct (is_dot c); [|exact I].
  exact (drop_while_head _ _ E).
Qed.

(** X3.  The text of a chunk, as the timestamp branch pushes it, does not
    start with white space and holds no line terminator. *)
Theorem timestamp_chunk_plain (line t x : jsstring) :
  lineMatch line = Some (t, x) -> plainText x.
Proof.
  intros H. apply lineMatch_some in H.
  destruct H as (pre & post & _ & ->). apply textAfter_plain.
Qed.

Lemma timestamp_chunk_plain_witness : plainText (js "Hello  ").
Proof.
  apply (@timestamp_chunk_plain (js "intro [00:05]   Hello  ")
           (js "00:05") (js "Hello  ")).
  vm_compute. reflexivity.
Defined.

Lemma textAfter_space_plain x : plainText x -> textAfter (js " " ++ x) = x.
Proof.
  intros [Hd Hh]. unfold textAfter. simpl.
  destruct x as [|c x]; [reflexivity|].
  simpl. rewrite Hh. apply take_while_all. exact Hd.
Qed.

(** The paragraph of a chunk reads as a line with that chunk's stamp. *)
Lemma paragraph_line c :
  timestamp (time c) -> plainText (text c) ->
  lineMatch (paragraphText (chunkParagraph c)) = Some (time c, text c).
Proof.
  intros Ht Hx. apply lineMatch_some.
  exists [], (js " " ++ text c). split.
  - split; [|split; [exact Ht|]].
    + unfold paragraphText, chunkParagraph. simpl.
      rewrite app_nil_r, <- app_assoc. reflexivity.
    + intros p1 p2 t' post' Hp Hne.
      symmetry in Hp. apply app_eq_nil in Hp as [_ ->]. congruence.
  - symmetry. apply textAfter_space_plain, Hx.
Qed.

(** X4.  Exporting and reading back: when the times are timestamps and
    the texts hold no line terminator and do not start with white space,
    the parser run on the paragraphs of the exported document gives the
    chunks back. *)
Theorem export_parse_round_trip (chunks : list TranscriptionChunk) :
  Forall (fun c => timestamp (time c) /\ plainText (text c)) chunks ->
  parseLines (map paragraphText (document chunks)) = chunks.
Proof.
  intros H. unfold parseLines, document.
  assert (G : forall acc,
             fold_left parseLine (map paragraphText (map chunkParagraph chunks)) acc
             = acc ++ chunks).
  { induction H as [|c chunks [Ht Hx] _ IH]; intros acc; simpl.
    - rewrite app_nil_r. reflexivity.
    - rewrite IH. unfold parseLine at 1.
      rewrite (paragraph_line c Ht Hx).
      rewrite <- app_assoc. destruct c; reflexivity. }
  exact (G []).
Qed.

Lemma export_parse_round_trip_witness :
  parseLines (map paragraphText
                (document [{| time := js "00:05"; text := js "Hello world" |};
                           {| time := js "1:02:03"; text := js "" |}]))
  = [{| time := js "00:05"; text := js "Hello world" |};
     {| time := js "1:02:03"; text := js "" |}].
Proof.
  apply export_parse_round_trip.
  repeat constructor.
  - exists (js "00"), (js "05"), [].
    split; [reflexivity|]. split; [right; split; reflexivity|].
    split; [split; reflexivity | left; reflexivity].
  - exists (js "1"), (js "02"), (js ":03").
    split; [reflexivity|]. split; [left; split; reflexivity|].
    split; [split; reflexivity|].
    right. exists (js "03"). split; [reflexivity | split; reflexivity].
Defined.

End TranscriptProps.

(** ** More on the search filter and the seek mapping *)

Module SearchSeekProps.

Import JsString Regex Parser TimeRegexFacts ParserProps Seek SeekProps.
Import Search SearchProps SeekRange.

Lemma includes_trans t a b :
  includes a b = true -> includes t a = true -> includes t b = true.
Proof.
  rewrite !includes_occurs. unfold occursIn.
  intros (p1 & q1 & ->) (p2 & q2 & ->).
  exists (p2 ++ p1), (q1 ++ q2). rewrite <- !app_assoc. reflexivity.
Qed.

Lemma filter_refines {A} (f g : A -> bool) l :
  (forall x, f x = true -> g x = true) ->
  filter f (filter g l) = filter f l.
Proof.
  intros H. induction l as [|x l IH]; simpl; [reflexivity|].
  destruct (g x) eqn:Eg; simpl.
  - rewrite IH. reflexivity.
  - destruct (f x) eqn:Ef; [|exact IH].
    rewrite (H x Ef) in Eg. discriminate.
Qed.

(** X5.  Narrowing a search: when the lower-cased old query occurs in
    the lower-cased new query, the result for the new query is the old
    result filtered again, so that the new query never brings a chunk
    back.  For ASCII queries this is the case whenever the old query
    occurs in the new one up to case, whatever the texts are. *)
Theorem search_narrows (toLowerCase : jsstring -> jsstring)
    (chunks : list TranscriptionChunk) (query query' : jsstring) :
  occursIn (toLowerCase query) (toLowerCase query')
  \/ (LowerOnAscii toLowerCase /\ isAscii query /\ isAscii query' /\
      containsIgnoringCase asciiLower query' query) ->
  filteredTranscription toLowerCase chunks query'
  = filteredTranscription toLowerCase
      (filteredTranscription toLowerCase chunks query) query'.
Proof.
  intros H.
  assert (Hi : includes (toLowerCase query') (toLowerCase query) = true).
  { apply includes_occurs.
    destruct H as [H | (HL & Hq & Hq' & Hc)]; [exact H|].
    rewrite (HL _ Hq), (HL _ Hq'). apply occurs_mapped, Hc. }
  unfold filteredTranscription. symmetry. apply filter_refines.
  intros c Hc. eapply includes_trans; eassumption.
Qed.

Lemma search_narrows_witness :
  filteredTranscription standardLower
    [{| time := js "00:05"; text := js "Hello" |};
     {| time := js "00:09"; text := js "The end" |}] (js "HEL")
  = filteredTranscription standardLower
      (filteredTranscription standardLower
         [{| time := js "00:05"; text := js "Hello" |};
          {| time := js "00:09"; text := js "The end" |}] (js "he"))
      (js "HEL").
Proof.
  apply search_narrows. right.
  split; [exact standardLower_on_ascii|].
  split; [vm_compute; repeat constructor|].
  split; [vm_compute; repeat constructor|].
  exists [], (js "HE"), (js "L"). split; [reflexivity|].
  repeat constructor.
Defined.

(** That the old query occurs in the new one as it stands is not enough
    outside ASCII: the capital sigma occurs in alpha-sigma, the query
    alpha-sigma finds the text alpha-sigma, but the query sigma does
    not. *)
Lemma narrowing_needs_lower_case_occurrence :
  let chunks := [{| time := js "00:05"; text := [913%N; 931%N] |}] in
  occursIn [931%N] [913%N; 931%N]
  /\ filteredTranscription standardLower chunks [913%N; 931%N] = chunks
  /\ filteredTranscription standardLower
       (filteredTranscription standardLower chunks [931%N]) [913%N; 931%N] = [].
Proof.
  cbv zeta. split; [|split]; try reflexivity.
  exists [913%N], []. reflexivity.
Qed.

(** The parts of a time are one more than its colons. *)
Lemma split_colons t :
  length (split 58 t) = S (count_occ N.eq_dec t 58%N).
Proof.
  induction t as [|c t IH]; [reflexivity|].
  simpl split. simpl count_occ.
  destruct (N.eqb c 58) eqn:E.
  - apply N.eqb_eq in E; subst c.
    destruct (N.eq_dec 58 58) as [_|n]; [|congruence].
    simpl. rewrite IH. reflexivity.
  - apply N.eqb_neq in E.
    destruct (N.eq_dec c 58) as [e|_]; [congruence|].
    destruct (split 58 t) as [|part parts]; simpl in *; [discriminate | exact IH].
Qed.

(** X6.  A time with no colon (the empty string among them) or with
    three colons or more seeks to 0, whatever stands between the colons. *)
Theorem seek_falls_back_to_zero (Number : jsstring -> float) (time : jsstring) :
  count_occ N.eq_dec time 58%N <> 1 ->
  count_occ N.eq_dec time 58%N <> 2 ->
  seekSeconds Number time = 0%float.
Proof.
  intros H1 H2. unfold seekSeconds.
  rewrite length_map, split_colons.
  destruct (count_occ N.eq_dec time 58%N) as [|[|[|n]]]; try congruence;
    reflexivity.
Qed.

Lemma seek_falls_back_to_zero_witness :
  seekSeconds digitsNumber (js "1:02:03:04") = 0%float.
Proof.
  apply seek_falls_back_to_zero; vm_compute; discriminate.
Defined.

Lemma digit_in_codes c : is_digit c = true -> In c digitCodes.
Proof.
  intros H. apply is_digit_range in H.
  assert (E : (c = 48 \/ c = 49 \/ c = 50 \/ c = 51 \/ c = 52 \/ c = 53 \/
               c = 54 \/ c = 55 \/ c = 56 \/ c = 57)%N) by lia.
  unfold digitCodes. simpl.
  repeat (destruct E as [E|E]; [subst c; tauto|]). subst c. tauto.
Qed.

Lemma digits1_in w : digits 1 w -> In w oneDigit.
Proof.
  intros [Hd Hl]. destruct w as [|a [|b w]]; try discriminate.
  simpl in Hd. rewrite andb_true_r in Hd.
  unfold oneDigit. apply (in_map (fun a => [a])), digit_in_codes, Hd.
Qed.

Lemma digits2_in w : digits 2 w -> In w twoDigits.
Proof.
  intros [Hd Hl]. destruct w as [|a [|b [|c w]]]; try discriminate.
  simpl in Hd. rewrite andb_true_r in Hd. apply andb_prop in Hd as [Ha Hb].
  unfold twoDigits. apply in_flat_map. exists a.
  split; [apply digit_in_codes, Ha|].
  apply (in_map (fun b => [a; b])), digit_in_codes, Hb.
Qed.

(** All offsets that strings of one or two digits give are in range:
    checked on each of them. *)
Lemma twoPart_all_inRange :
  forallb (fun m => forallb (fun sec => inRange (twoPartOffset m sec)) twoDigits)
    (oneDigit ++ twoDigits) = true.
Proof. vm_compute. reflexivity. Qed.

Lemma threePart_all_inRange :
  forallb (fun h =>
    forallb (fun m =>
      forallb (fun sec => inRange (threePartOffset h m sec)) twoDigits)
      twoDigits)
    (oneDigit ++ twoDigits) = true.
Proof. vm_compute. reflexivity. Qed.

Lemma twoPart_inRange m sec :
  In m (oneDigit ++ twoDigits) -> In sec twoDigits ->
  inRange (twoPartOffset m sec) = true.
Proof.
  intros Hm Hs.
  pose proof (proj1 (forallb_forall _ _) twoPart_all_inRange m Hm) as K.
  exact (proj1 (forallb_forall _ _) K sec Hs).
Qed.

Lemma threePart_inRange h m sec :
  In h (oneDigit ++ twoDigits) -> In m twoDigits -> In sec twoDigits ->
  inRange (threePartOffset h m sec) = true.
Proof.
  intros Hh Hm Hs.
  pose proof (proj1 (forallb_forall _ _) threePart_all_inRange h Hh) as K.
  pose proof (proj1 (forallb_forall _ _) K m Hm) as K'.
  exact (proj1 (forallb_forall _ _) K' sec Hs).
Qed.

Lemma digits_length_bound n w : digits n w -> n <= 2 -> 1 <= n ->
  forallb is_digit w = true /\ 1 <= length w <= 15.
Proof. intros [Hd Hl] H2 H1. split; [exact Hd | lia]. Qed.

(** The offset of a timestamp is in range. *)
Lemma timestamp_seek_inRange (Number : jsstring -> float) (t : jsstring) :
  NumberOnDigits Number -> timestamp t ->
  inRange (seekSeconds Number t) = true.
Proof.
  intros HN Ht.
  destruct (timestamp_split Ht) as (mm & ss & Hmm & Hss & Hsplit).
  assert (Nmm : Number mm = decimalValue mm).
  { destruct Hmm as [H|H]; apply HN; apply (digits_length_bound H); lia. }
  assert (Nss : Number ss = decimalValue ss).
  { apply HN; apply (digits_length_bound Hss); lia. }
  assert (Imm : In mm (oneDigit ++ twoDigits)).
  { apply in_or_app. destruct Hmm; [left; apply digits1_in | right; apply digits2_in];
      assumption. }
  pose proof (digits2_in Hss) as Iss.
  unfold seekSeconds.
  destruct Hsplit as [E | (ss' & Hs' & E)]; rewrite E; cbn [map length nth Nat.eqb].
  - rewrite Nmm, Nss. exact (twoPart_inRange Imm Iss).
  - assert (Ns' : Number ss' = decimalValue ss').
    { apply HN; apply (digits_length_bound Hs'); lia. }
    rewrite Nmm, Nss, Ns'. exact (threePart_inRange Imm Iss (digits2_in Hs')).
Qed.

(** X7.  With a conversion that reads strings of digits as decimal
    numbers, the seek offset of every chunk the parser produces is a
    number of seconds between 0 and 362439; it is never NaN. *)
Theorem parser_seek_in_range (Number : jsstring -> float)
    (text : jsstring) (c : TranscriptionChunk) :
  NumberOnDigits Number ->
  In c (parseTranscript text) ->
  inRange (seekSeconds Number (time c)) = true.
Proof.
  intros HN Hin. apply timestamp_seek_inRange; [exact HN|].
  pose proof (parseLines_times (split 10 text)) as H.
  rewrite Forall_forall in H. apply H. apply in_map. exact Hin.
Qed.

Lemma parser_seek_in_range_witness :
  inRange (seekSeconds digitsNumber (js "01:20")) = true.
Proof.
  apply (@parser_seek_in_range digitsNumber
           (js "stray text" ++ newline ++ js "[01:20] Next")
           {| time := js "01:20"; text := js "Next" |}).
  - exact digitsNumber_on_digits.
  - vm_compute. right. left. reflexivity.
Defined.

End SearchSeekProps.

(** ** More on the audio proxy *)

Module ProxyMore.

Import JsString Proxy ProxyProps.

(** All the ways a request can go, for a statement about [route req]. *)
Ltac route_cases fetch req :=
  destruct req as [[[|? ?]|]]; run_route;
  try match goal with
  | |- context [fetch ?u] =>
      let up := fresh "up" in
      let Hok := fresh "Hok" in
      destruct (fetch u) as [up|]; cbn;
      [ destruct (ok up) eqn:Hok; cbn;
        [ destruct (contentType up) as [[|? ?]|]; cbn;
          destruct (arrayBuffer up) as [?|]; cbn
        | ]
      | ]
  end; auto.

Lemma not_ok_status up :
  ok up = false -> ((status up <? 200) || (299 <? status up))%N = true.
Proof.
  unfold ok. intros H. apply andb_false_iff in H.
  apply orb_true_iff.
  destruct H as [H|H]; apply N.leb_gt in H; [left | right];
    apply N.ltb_lt; exact H.
Qed.

(** X8.  The proxy answers every request, and its answer is consistent:
    a JSON error body never goes out with a status in the range 200-299,
    and bytes only go out with status 200. *)
Theorem proxy_always_answers (fetch : jsstring -> outcome upstream)
    (route : request -> response) (req : request) :
  entryPoint fetch route ->
  exists b, sent (route req) = Some b /\
    match b with
    | Json _ =>
        ((statusCode (route req) <? 200) || (299 <? statusCode (route req)))%N = true
    | Buffer _ => statusCode (route req) = 200%N
    end.
Proof.
  intros [-> | ->]; route_cases fetch req;
    eexists; (split; [reflexivity|]); cbn; auto using not_ok_status.
Qed.

Lemma proxy_always_answers_witness :
  exists b,
    sent (serverRoute (fun _ => Throws) {| query_url := Some (js "https://example.org/a.mp3") |})
    = Some b.
Proof.
  destruct (@proxy_always_answers (fun _ => Throws)
              (serverRoute (fun _ => Throws))
              {| query_url := Some (js "https://example.org/a.mp3") |}
              (or_intror eq_refl)) as (b & Hb & _).
  exists b. exact Hb.
Defined.

(** X9.  Whatever the outcome, the response of the server route carries
    the two isolation headers that its middleware sets. *)
Theorem server_route_isolated (fetch : jsstring -> outcome upstream)
    (req : request) :
  getHeader "Cross-Origin-Opener-Policy" (serverRoute fetch req)
  = Some (js "same-origin")
  /\ getHeader "Cross-Origin-Embedder-Policy" (serverRoute fetch req)
     = Some (js "require-corp").
Proof.
  route_cases fetch req.
Qed.

End ProxyMore.

(** ** The outcomes of the actions *)

Module ActionProps.

Import JsString JsNumber Parser Proxy App View Progress ProgressProps.
Import ParserProps TranscriptProps.

(** While [handleTranscribe] awaits, only the flag and the counter of the
    transcription differ from the state it started in. *)
Lemma transcribePending_frame n s :
  let p := transcribePending n s in
  audioFile p = audioFile s /\ audioUrl p = audioUrl s /\
  inputUrl p = inputUrl s /\ transcription p = transcription s /\
  searchQuery p = searchQuery s /\ isConverting p = isConverting s /\
  conversionProgress p = conversionProgress s /\
  convertedUrl p = convertedUrl s /\ targetFormat p = targetFormat s /\
  isTranscribing p = true.
Proof.
  unfold transcribePending.
  induction n as [|n IH]; [cbn; tauto|].
  cbn [Nat.iter nat_rect]. unfold progressTick at 1. cbn. exact IH.
Qed.

(** X12.  A load from a URL that fails, because the request throws, the
    proxy answers with an error, or the body cannot be read, leaves every
    state field as it was, logs the error and shows one alert. *)
Theorem url_load_failure (env : environment) (s : state) :
  truthy (inputUrl s) = true ->
  (fetchProxy env (inputUrl s) = Throws \/
   exists r, fetchProxy env (inputUrl s) = Returns r /\
     (response_ok r = false \/ response_blob r = Throws)) ->
  fst (handleUrlSubmit env s) = s
  /\ snd (handleUrlSubmit env s)
     = [PreventDefault; ConsoleError;
        Alert (js "Failed to load audio from URL. Please check the URL and try again.")].
Proof.
  intros Hu H. unfold handleUrlSubmit. rewrite Hu. cbn.
  destruct H as [-> | (r & -> & [Hr | Hr])]; [auto | |].
  - rewrite Hr. auto.
  - rewrite Hr. destruct (response_ok r); auto.
Qed.

Lemma url_load_failure_witness :
  fst (handleUrlSubmit offline busyState) = busyState.
Proof.
  apply (@url_load_failure offline busyState); [reflexivity|].
  left. reflexivity.
Defined.

(** X13.  [handleTranscribe] never touches the loaded audio, the typed
    URL, the search query, the conversion state or the target format; and
    it replaces the transcript only when the response has arrived. *)
Theorem transcribe_frame (env : environment) (n : nat) (s : state) :
  let s' := fst (handleTranscribe env n s) in
  audioFile s' = audioFile s /\ audioUrl s' = audioUrl s /\
  inputUrl s' = inputUrl s /\ searchQuery s' = searchQuery s /\
  isConverting s' = isConverting s /\
  conversionProgress s' = conversionProgress s /\
  convertedUrl s' = convertedUrl s /\ targetFormat s' = targetFormat s /\
  ((exists file response,
      audioFile s = Some file /\
      generateContent env file = Returns (Some response))
   \/ transcription s' = transcription s).
Proof.
  unfold handleTranscribe.
  destruct (audioFile s) as [file|] eqn:Hfile; [|cbn; tauto].
  pose proof (transcribePending_frame n s) as F. cbv zeta in F.
  destruct F as (F1 & F2 & F3 & F4 & F5 & F6 & F7 & F8 & F9 & _).
  destruct (generateContent env file) as [[response|]|] eqn:Hg; cbn;
    (repeat split; try congruence);
    solve [left; eauto | right; assumption].
Qed.

(** X14.  A transcription that fails, because the request is rejected or
    the response is empty handed, ends with the busy flag off, the former
    transcript in place, the interval cleared and one alert; the progress
    stays where the simulation had brought it, below 100. *)
Theorem transcribe_failure (env : environment) (n : nat) (s : state)
    (file : blob) :
  audioFile s = Some file ->
  generateContent env file = Throws \/ generateContent env file = Returns None ->
  let s' := fst (handleTranscribe env n s) in
  isTranscribing s' = false
  /\ transcription s' = transcription s
  /\ transcriptionProgress s' = ticks n 0
  /\ PrimFloat.ltb (transcriptionProgress s') 100 = true
  /\ snd (handleTranscribe env n s)
     = [ConsoleError;
        Alert (js "Transcription failed. The file might be too large or the API encountered an error.");
        ClearInterval].
Proof.
  intros Hfile H. unfold handleTranscribe. rewrite Hfile.
  pose proof (transcribePending_frame n s) as F. cbv zeta in F.
  pose proof (transcribePending_progress n s) as P.
  destruct H as [-> | ->]; cbn; rewrite P;
    (repeat split; try tauto; apply ticks_below).
Qed.

Lemma transcribe_failure_witness :
  isTranscribing (fst (handleTranscribe offline 7 loadedState)) = false.
Proof.
  apply (@transcribe_failure offline 7 loadedState sampleBlob);
    [reflexivity | left; reflexivity].
Defined.

(** X15.  A transcription that succeeds stores the parsed chunks, sets the
    progress to 100, clears the interval and shows no alert; the busy flag
    stays on until the timeout resets it.  When the response has no text,
    or white space only, the transcript is empty and no message says so. *)
Theorem transcribe_success (env : environment) (n : nat) (s : state)
    (file : blob) (response : modelResponse) :
  audioFile s = Some file ->
  generateContent env file = Returns (Some response) ->
  let s' := fst (handleTranscribe env n s) in
  transcription s' = parseTranscript (textOf response)
  /\ transcriptionProgress s' = 100%float
  /\ isTranscribing s' = true
  /\ snd (handleTranscribe env n s) = [ClearInterval; ResetTranscribingAfter 500]
  /\ (forallb is_white (textOf response) = true -> transcription s' = []).
Proof.
  intros Hfile Hg. unfold handleTranscribe. rewrite Hfile, Hg.
  pose proof (transcribePending_frame n s) as F. cbv zeta in F.
  assert (E : (match response_text response with
               | Some t => if truthy t then t else []
               | None => []
               end) = textOf response).
  { unfold textOf. destruct (response_text response) as [[|c t]|]; reflexivity. }
  cbn. rewrite E.
  repeat split; try tauto.
  intros Hw. apply white_text_no_chunks, Hw.
Qed.

Lemma transcribe_success_witness :
  transcription (fst (handleTranscribe online 3 loadedState))
  = parseTranscript (js "[00:05] Hello").
Proof.
  apply (@transcribe_success online 3 loadedState sampleBlob
           {| response_text := Some (js "[00:05] Hello") |});
    reflexivity.
Defined.

Lemma last_default {A} (l : list A) x d d' :
  last (x :: l) d = last (x :: l) d'.
Proof.
  revert x. induction l as [|y l IH]; intros x; [reflexivity|].
  change (last (y :: l) d = last (y :: l) d'). apply IH.
Qed.

Lemma reports_frame reports : forall s,
  let r := fold_left (fun st p => setConversionProgress p st) reports s in
  audioFile r = audioFile s /\ audioUrl r = audioUrl s /\
  inputUrl r = inputUrl s /\ isTranscribing r = isTranscribing s /\
  transcriptionProgress r = transcriptionProgress s /\
  transcription r = transcription s /\ searchQuery r = searchQuery s /\
  isConverting r = isConverting s /\ convertedUrl r = convertedUrl s /\
  targetFormat r = targetFormat s /\
  conversionProgress r = last reports (conversionProgress s).
Proof.
  induction reports as [|p reports IH]; intros s; [cbn; tauto|].
  cbn [fold_left]. specialize (IH (setConversionProgress p s)).
  cbv zeta in *. cbn in IH.
  destruct IH as (I1 & I2 & I3 & I4 & I5 & I6 & I7 & I8 & I9 & I10 & I11).
  repeat split; try assumption.
  rewrite I11. destruct reports as [|q reports]; [reflexivity|].
  change (last (p :: q :: reports) (conversionProgress s))
    with (last (q :: reports) (conversionProgress s)).
  apply last_default.
Qed.

(** X16.  With an audio loaded, [handleConvert] ends with the busy flag
    off whether the conversion succeeds or throws, and it never touches
    the audio, the transcript, the search query or the target format.  A
    success stores the new object URL; a failure shows one alert and
    leaves the former converted URL, if any, in place.  The progress is
    the last value reported, or 0. *)
Theorem convert_outcomes (env : environment) (s : state) (file : blob) :
  audioFile s = Some file ->
  let s' := fst (handleConvert env s) in
  isConverting s' = false
  /\ audioFile s' = audioFile s /\ audioUrl s' = audioUrl s
  /\ transcription s' = transcription s /\ searchQuery s' = searchQuery s
  /\ targetFormat s' = targetFormat s
  /\ conversionProgress s'
     = last (fst (convertAudio env file (targetFormat s))) 0%float
  /\ match snd (convertAudio env file (targetFormat s)) with
     | Returns converted =>
         convertedUrl s' = Some (createObjectURL env converted)
         /\ snd (handleConvert env s) = []
     | Throws =>
         convertedUrl s' = convertedUrl s
         /\ snd (handleConvert env s)
            = [ConsoleError; Alert (js "Conversion failed. Please try again.")]
     end.
Proof.
  intros Hfile. unfold handleConvert. rewrite Hfile.
  destruct (convertAudio env file (targetFormat s)) as [reports result].
  pose proof (reports_frame reports
                (setConversionProgress 0 (setIsConverting true s))) as F.
  cbv zeta in F. cbn in F.
  destruct F as (F1 & F2 & F3 & F4 & F5 & F6 & F7 & F8 & F9 & F10 & F11).
  destruct result as [converted|]; cbn; repeat split;
    try assumption; congruence.
Qed.

Lemma convert_outcomes_witness :
  isConverting (fst (handleConvert online loadedState)) = false.
Proof.
  apply (@convert_outcomes online loadedState sampleBlob). reflexivity.
Defined.

End ActionProps.

(** ** The session: what holds in every state it can reach *)

Module SessionProps.

Import JsString JsNumber Parser Proxy App Progress ProgressProps.
Import Seek SeekProps Search SearchProps SeekRange SearchSeekProps View Session.

Lemma ticks_in_orbit n : In (ticks n 0) (orbit settle 0).
Proof.
  destruct (Nat.le_gt_cases n settle) as [Hle|Hgt].
  - apply orbit_ticks, Hle.
  - replace n with (settle + (n - settle))%nat by lia.
    rewrite ticks_add, ticks_fixed by apply settled.
    apply orbit_ticks. lia.
Qed.

Lemma orbit_climbs :
  forallb (fun v => PrimFloat.leb v (progressStep v)
                    && PrimFloat.ltb v 90.5%float)
    (orbit settle 0) = true.
Proof. vm_compute. reflexivity. Qed.

(** X17.  The simulated progress never goes back, stays below 90.5, and
    after 64 firings at the latest stands still at a value no smaller
    than 90: the bar stops between 90 and 91 percent until the response
    arrives. *)
Theorem progress_climbs_and_settles :
  (forall n, PrimFloat.leb (ticks n 0) (ticks (S n) 0) = true)
  /\ (forall n, PrimFloat.ltb (ticks n 0) 90.5%float = true)
  /\ (forall k, ticks (settle + k) 0 = ticks settle 0)
  /\ PrimFloat.leb 90%float (ticks settle 0) = true.
Proof.
  pose proof orbit_climbs as K. rewrite forallb_forall in K.
  split; [|split; [|split]].
  - intros n. rewrite ticks_succ.
    apply (proj1 (andb_prop _ _ (K _ (ticks_in_orbit n)))).
  - intros n. apply (proj2 (andb_prop _ _ (K _ (ticks_in_orbit n)))).
  - intros k. rewrite ticks_add. apply ticks_fixed, settled.
  - vm_compute. reflexivity.
Qed.

(** The setters that leave the audio, the calls that await, the
    transcript and the converted URL alone. *)
Ltac frame_case IH :=
  let U := fresh "U" in
  intros U; apply IH;
  unfold usesAudio, audioControlsShown, withUi in *; cbn in *; tauto.

(** X18.  In every state a session can reach, whatever was made from an
    audio comes with an audio: while the Transcribe and Convert controls
    are shown, while a call awaits, and while a transcript or a converted
    file exists, [audioFile] is set.  The guards of [handleTranscribe]
    and [handleConvert] therefore never fire from the rendered controls,
    and no audio is ever unloaded. *)
Theorem audio_stays_loaded (x : session) :
  reachable x -> usesAudio x -> audioFile (ui x) <> None.
Proof.
  induction 1 as [|x y Hx IH Hupd].
  - intros [U|[U|[U|[U|U]]]]; cbn in U; congruence.
  - destruct Hupd; try solve [frame_case IH].
    + intros _. cbn. discriminate.
    + intros _. cbn. congruence.
    + intros _. cbn. apply IH. right. left. congruence.
    + intros _. cbn. apply IH. right. left. congruence.
    + intros _. cbn. congruence.
    + intros _. cbn. apply IH. right. right. left. congruence.
    + intros _. cbn. apply IH. right. right. left. congruence.
Qed.

Lemma audio_stays_loaded_witness :
  audioFile (ui (withUi (setInputUrl (js "x"))
                   (withUi (fun s => setConvertedUrl None
                              (setTranscription []
                                (setAudioUrl (js "blob:audio")
                                  (setAudioFile (Some sampleBlob) s)))) start)))
  <> None.
Proof.
  apply audio_stays_loaded.
  - eapply reachable_update; [eapply reachable_update; [apply reachable_start|]|].
    + apply (load_audio sampleBlob (js "blob:audio")).
    + apply type_url.
  - left. reflexivity.
Defined.

(** The progress of a reachable state is a value of the simulation or
    100. *)
Lemma progress_values (x : session) :
  reachable x ->
  (exists k, transcriptionProgress (ui x) = ticks k 0)
  \/ transcriptionProgress (ui x) = 100%float.
Proof.
  induction 1 as [|x y Hx IH Hupd].
  - left. exists 0. reflexivity.
  - destruct Hupd; cbn; try exact IH.
    + left. exists 0. reflexivity.
    + destruct IH as [[k E]|E]; rewrite E.
      * left. exists (S k). symmetry. apply ticks_succ.
      * right. vm_compute. reflexivity.
    + right. reflexivity.
Qed.

Lemma clamp_orbit :
  Forall (fun v => mathMin 100 (mathMax 0 v) = v) (orbit settle 0).
Proof.
  vm_compute. repeat (constructor; [reflexivity|]). constructor.
Qed.

(** X19.  In every reachable state the progress of the transcription is
    within 0 and 100 already: the clamp that computes the width of the
    progress bar changes nothing. *)
Theorem bar_width_is_progress (x : session) :
  reachable x -> barWidth (ui x) = transcriptionProgress (ui x).
Proof.
  intros Hx. unfold barWidth.
  destruct (progress_values Hx) as [[k E]|E]; rewrite E.
  - pose proof clamp_orbit as K. rewrite Forall_forall in K.
    apply K, ticks_in_orbit.
  - vm_compute. reflexivity.
Qed.

Lemma bar_width_is_progress_witness :
  barWidth (ui (withUi progressTick (withUi progressTick start)))
  = transcriptionProgress (ui (withUi progressTick (withUi progressTick start))).
Proof.
  apply bar_width_is_progress.
  eapply reachable_update; [eapply reachable_update; [apply reachable_start|]|];
    apply progress_tick.
Defined.

Lemma reachable_times (x : session) :
  reachable x -> Forall timestamp (map time (transcription (ui x))).
Proof.
  induction 1 as [|x y Hx IH Hupd].
  - constructor.
  - destruct Hupd; cbn; try exact IH; try constructor.
    apply parseLines_times.
Qed.

(** X20.  In every reachable state, with any search query, the timestamp
    button of every chunk that is shown seeks to a number of seconds
    between 0 and 362439, never to NaN and never through the fallback. *)
Theorem shown_chunks_seek_in_range (Number : jsstring -> float)
    (toLowerCase : jsstring -> jsstring) (x : session) (c : TranscriptionChunk) :
  NumberOnDigits Number ->
  reachable x ->
  In c (filteredTranscription toLowerCase (transcription (ui x)) (searchQuery (ui x))) ->
  timestamp (time c)
  /\ inRange (seekSeconds Number (time c)) = true.
Proof.
  intros HN Hx Hin.
  assert (Ht : timestamp (time c)).
  { unfold filteredTranscription in Hin. apply filter_In in Hin as [Hin _].
    pose proof (reachable_times Hx) as H. rewrite Forall_forall in H.
    apply H, in_map, Hin. }
  split; [exact Ht|]. apply timestamp_seek_inRange; assumption.
Qed.

Lemma shown_chunks_seek_in_range_witness :
  inRange (seekSeconds digitsNumber (js "00:05")) = true.
Proof.
  refine (proj2 (@shown_chunks_seek_in_range digitsNumber standardLower _
                   {| time := js "00:05"; text := js "Hello" |}
                   digitsNumber_on_digits _ _)).
  - eapply reachable_update;
      [eapply reachable_update;
         [eapply reachable_update; [apply reachable_start|] |] |].
    + apply (load_audio sampleBlob (js "blob:audio")).
    + eapply transcribe_begin. reflexivity.
    + eapply (transcribe_done (js "[00:05] Hello")). reflexivity.
  - vm_compute. left. reflexivity.
Defined.

(** X21.  When the list of chunks is rendered, the line "No results
    found" is shown exactly when no chunk is: the test of the query in
    its condition never decides.  With an empty query all chunks are
    shown.  (Of the lower-casing this needs only that it leaves the
    empty string empty.) *)
Theorem no_results_line (toLowerCase : jsstring -> jsstring) (s : state)
    (shown : list TranscriptionChunk) (noResults : bool) :
  toLowerCase [] = [] ->
  transcriptionPanel toLowerCase s = ChunkList shown noResults ->
  (noResults = true <-> shown = [])
  /\ (searchQuery s = [] -> shown = transcription s).
Proof.
  intros HE. unfold transcriptionPanel.
  destruct (isTranscribing s); [discriminate|].
  destruct (Nat.eqb (length (transcription s)) 0) eqn:El; [discriminate|].
  intros H. injection H as <- <-.
  apply Nat.eqb_neq in El.
  split.
  - destruct (searchQuery s) as [|q0 q] eqn:Eq.
    + rewrite (filter_empty_query _ _ HE), andb_false_r.
      split; [discriminate|].
      intros E. rewrite E in El. contradiction.
    + cbn [truthy]. rewrite andb_true_r, Nat.eqb_eq.
      apply length_zero_iff_nil.
  - intros ->. apply (filter_empty_query _ _ HE).
Qed.

Lemma no_results_line_witness :
  (true = true <-> @nil TranscriptionChunk = [])
  /\ (searchQuery (setSearchQuery (js "zebra") busyState) = [] ->
      [] = transcription (setSearchQuery (js "zebra") busyState)).
Proof.
  apply (@no_results_line standardLower (setSearchQuery (js "zebra") busyState)).
  - reflexivity.
  - vm_compute. reflexivity.
Defined.

End SessionProps.

(** ** The conversion engine *)

Module FfmpegProps.

Import JsString App Ffmpeg.

Local Abbreviation Returns := Proxy.Returns.
Local Abbreviation Throws := Proxy.Throws.

Ltac run_engine :=
  unfold convertAudio, getFFmpeg, bind, await, tell, ret, readVariable,
    writeVariable, newFunction, resultOf, memoryOf, callsOf in *;
  cbn in *.

(** Split on what the next awaited call gives. *)
Ltac next_call :=
  match goal with
  | |- context [match ?o with Proxy.Returns _ => _ | Proxy.Throws => _ end] =>
      lazymatch o with
      | toBlobURL _ _ _ => idtac
      | load _ _ _ => idtac
      | fetchFile _ _ => idtac
      | writeFile _ _ _ => idtac
      | exec _ _ => idtac
      | readFile _ _ => idtac
      | deleteFile _ _ => idtac
      end;
      let E := fresh "E" in destruct o eqn:E; cbn in *
  end.

(** Split on what the next call of the load gives. *)
Ltac load_call :=
  match goal with
  | |- context [match ?o with Proxy.Returns _ => _ | Proxy.Throws => _ end] =>
      lazymatch o with
      | toBlobURL _ _ _ => idtac
      | load _ _ _ => idtac
      end;
      let E := fresh "E" in destruct o eqn:E; cbn in *
  end.

(** X22.  After a first call of [getFFmpeg], whatever its outcome, every
    later call makes no library call at all and returns the object the
    module variable holds: the engine is created and loaded at most
    once. *)
Theorem load_at_most_once (lib lib' : library) (m : memory) :
  exists ff,
    ffmpeg (memoryOf (getFFmpeg lib m)) = Some ff
    /\ getFFmpeg lib' (memoryOf (getFFmpeg lib m))
       = (Returns ff, memoryOf (getFFmpeg lib m), []).
Proof.
  run_engine. destruct (ffmpeg m) as [ff|] eqn:Hm; cbn.
  - exists ff. rewrite Hm. auto.
  - repeat next_call; eexists; split; reflexivity.
Qed.

(** X23.  A load that fails is never tried again: when the first call of
    [getFFmpeg] throws, every later call returns, without an exception,
    an object whose load has not completed.  When the first call
    returns, the object is loaded. *)
Theorem failed_load_sticks (lib : library) (m : memory) :
  ffmpeg m = None ->
  match resultOf (getFFmpeg lib m) with
  | Throws =>
      forall lib',
        resultOf (getFFmpeg lib' (memoryOf (getFFmpeg lib m)))
        = Returns {| loaded := false |}
  | Returns ff => loaded ff = true
  end.
Proof.
  intros Hm. run_engine. rewrite Hm. cbn.
  repeat next_call; reflexivity.
Qed.

Lemma failed_load_sticks_witness :
  resultOf (getFFmpeg working (memoryOf (getFFmpeg unplugged freshMemory)))
  = Returns {| loaded := false |}.
Proof.
  exact (@failed_load_sticks unplugged freshMemory eq_refl working).
Defined.

Lemma names_differ file fmt : inputName file <> outputName fmt.
Proof. unfold inputName, outputName. discriminate. Qed.

Local Opaque inputName outputName.

(** X24.  A conversion that returns has deleted both the file it wrote
    and the file it read; the blob it returns has the bytes read from the
    output file and the type "audio/" followed by the target format.  The
    input and the output never have the same name. *)
Theorem convert_success (lib : library) (file : blob) (fmt : format)
    (onProgress : bool) (m : memory) (b : blob) :
  resultOf (convertAudio lib file fmt onProgress m) = Returns b ->
  blobType b = js "audio/" ++ formatName fmt
  /\ readFile lib (outputName fmt) = Returns (blobBytes b)
  /\ In (DeleteFile (inputName file)) (callsOf (convertAudio lib file fmt onProgress m))
  /\ In (DeleteFile (outputName fmt)) (callsOf (convertAudio lib file fmt onProgress m))
  /\ inputName file <> outputName fmt.
Proof.
  intros H.
  assert (Hn := @names_differ file fmt).
  revert H. run_engine.
  destruct (ffmpeg m) as [ff|]; cbn;
    repeat next_call; try discriminate;
    destruct onProgress; cbn; repeat next_call; try discriminate;
    intros H; injection H as <-; cbn;
    (split; [reflexivity|]);
    (split; [first [assumption | reflexivity]|]);
    (split; [|split; [|exact Hn]]);
    cbn; tauto.
Qed.

Lemma convert_success_witness :
  blobType {| blobType := js "audio/m4a"; blobBytes := [255; 251]%N |}
  = js "audio/" ++ formatName m4a.
Proof.
  apply (@convert_success working sampleBlob m4a true freshMemory
           {| blobType := js "audio/m4a"; blobBytes := [255; 251]%N |}).
  reflexivity.
Defined.

(** X25.  A conversion whose [exec] or whose reading of the output
    throws, after the input has been written, throws itself and cleans
    nothing up: the input file has been written and no file is deleted,
    the progress listener has been added and none is removed. *)
Theorem convert_failure_leaves_traces (lib : library) (file : blob)
    (fmt : format) (m : memory) (ff : instance) (data : list N) :
  resultOf (getFFmpeg lib m) = Returns ff ->
  fetchFile lib file = Returns data ->
  writeFile lib (inputName file) data = Returns tt ->
  exec lib [js "-i"; inputName file; outputName fmt] = Throws
  \/ readFile lib (outputName fmt) = Throws ->
  resultOf (convertAudio lib file fmt true m) = Throws
  /\ In (WriteFile (inputName file) data) (callsOf (convertAudio lib file fmt true m))
  /\ existsb isDelete (callsOf (convertAudio lib file fmt true m)) = false
  /\ In (On (functions m)) (callsOf (convertAudio lib file fmt true m))
  /\ existsb isOff (callsOf (convertAudio lib file fmt true m)) = false.
Proof.
  intros Hg Hf Hw He. revert Hg. run_engine.
  destruct (ffmpeg m) as [ff0|]; cbn;
    repeat load_call; try discriminate; intros _;
    rewrite Hf; cbn; rewrite Hw; cbn;
    repeat next_call;
    try (exfalso; destruct He; congruence);
    repeat split; cbn; tauto.
Qed.

Lemma convert_failure_leaves_traces_witness :
  resultOf (convertAudio
              {| toBlobURL := fun url _ => Returns url;
                 load := fun _ _ => Returns tt;
                 fetchFile := fun f => Returns (blobBytes f);
                 writeFile := fun _ _ => Returns tt;
                 exec := fun _ => Throws;
                 readFile := fun _ => Throws;
                 deleteFile := fun _ => Returns tt |}
              sampleBlob aac true freshMemory) = Throws.
Proof.
  apply (@convert_failure_leaves_traces _ sampleBlob aac freshMemory
           {| loaded := true |} (blobBytes sampleBlob));
    try reflexivity.
  left. reflexivity.
Defined.

Lemma filter_younger n ls :
  Forall (fun g => g < n) ls ->
  filter (fun g => negb (Nat.eqb g (S n))) (ls ++ [n]) = ls ++ [n].
Proof.
  intros H. induction H as [|g ls Hg _ IH]; simpl.
  - replace (Nat.eqb n (S n)) with false; [reflexivity|].
    symmetry. apply Nat.eqb_neq. lia.
  - replace (Nat.eqb g (S n)) with false; [simpl; rewrite IH; reflexivity|].
    symmetry. apply Nat.eqb_neq. lia.
Qed.

Lemma younger_snoc n k ls :
  Forall (fun g => g < n) ls -> n < k ->
  Forall (fun g => g < k) (ls ++ [n]).
Proof.
  intros H Hk. apply Forall_app. split.
  - eapply Forall_impl; [|exact H]. cbn. intros. lia.
  - repeat constructor. exact Hk.
Qed.

(** X26.  Every conversion with a progress callback, on an engine that
    [getFFmpeg] could return, leaves one listener more on the FFmpeg
    object than it found, whether it returns or throws: the function
    given to [off] is a new one and removes none.  (The second part
    keeps the premise for the next conversion.) *)
Theorem progress_listeners_pile_up (lib : library) (file : blob)
    (fmt : format) (m : memory) (ff : instance) (ls : list nat) :
  resultOf (getFFmpeg lib m) = Returns ff ->
  Forall (fun g => g < functions m) ls ->
  length (listenersAfter (callsOf (convertAudio lib file fmt true m)) ls)
  = S (length ls)
  /\ Forall (fun g => g < functions (memoryOf (convertAudio lib file fmt true m)))
       (listenersAfter (callsOf (convertAudio lib file fmt true m)) ls).
Proof.
  intros Hg Hls. revert Hg. run_engine.
  destruct (ffmpeg m) as [ff0|]; cbn;
    repeat next_call; try discriminate; intros _;
    rewrite ?(filter_younger Hls), ?length_app; cbn;
    (split; [lia | apply (younger_snoc Hls); lia]).
Qed.

Lemma progress_listeners_pile_up_witness :
  length (listenersAfter
            (callsOf (convertAudio working sampleBlob mp3 true freshMemory)) [])
  = 1.
Proof.
  apply (@progress_listeners_pile_up working sampleBlob mp3 freshMemory
           {| loaded := true |} []).
  - reflexivity.
  - constructor.
Defined.

End FfmpegProps.
